(** * The lint task of the CLI: [packages/@angular/cli/tasks/lint.ts]

    A shallow embedding of the task's [run] function and of its two helpers
    [getFilesToLint] and [getFileContents], followed by the properties of the
    task that its specification states.

    The task is glue around collaborators that are not part of this file:
    the project's own [tslint] module, [glob], [fs], [path] and [semver].
    They are gathered in the record [Env]; every definition of the task is
    written against an arbitrary [Env], and a small concrete one
    ([Toy.env]) is used to run the task on examples.

    Effects are explicit. A computation of the task takes the world (the
    file system, as the collaborators see it) and gives the events it
    caused, the world it leaves and what it returned or threw. The source
    handles the failure of one collaborator, [fs.readFileSync] (the [try]
    of [getFileContents]). Two calls of the library throw on the very
    inputs the task is about, and their errors pass through the task as
    they are: [linter.getResult], which formats with the formatter the
    linter was built for and throws when it does not find it, and
    [findFormatter], which throws when it is given no name. The other
    collaborators are taken to return. Of the collaborators only
    [linter.lint] may change the world, when it writes a fix back. *)

From Stdlib Require Import List String Ascii ZArith Bool Lia.
From Stdlib Require Import Permutation.
Import ListNotations.
Local Open Scope string_scope.

(** ** JavaScript values the task relies on *)

Module Js.

(** The double quote character, for the template literals of the source. *)
Definition dq : string := String (ascii_of_nat 34) EmptyString.

(** An own property of an object literal: missing, present with the value
    [undefined], or present with a value. *)
Inductive prop (A : Type) : Type :=
| Absent
| Undefined
| Value (a : A).
Arguments Absent {A}.
Arguments Undefined {A}.
Arguments Value {A} a.

(** [{ ...d, ...o }] at one key: a key of [o] wins whenever it is present,
    also when its value is [undefined]. *)
Definition spread {A : Type} (d : option A) (o : prop A) : option A :=
  match o with
  | Absent => d
  | Undefined => None
  | Value a => Some a
  end.

(** ToBoolean on [boolean | undefined]. *)
Definition truthy (b : option bool) : bool :=
  match b with
  | Some true => true
  | _ => false
  end.

(** ToBoolean on a string: only the empty string is falsy. *)
Definition nonEmpty (s : string) : bool :=
  match s with
  | EmptyString => false
  | String _ _ => true
  end.

(** ToBoolean on [string | undefined]. *)
Definition truthyString (s : option string) : option string :=
  match s with
  | Some t => if nonEmpty t then Some t else None
  | None => None
  end.

(** [a !== b] on [string | undefined]. *)
Definition strictNeq (a b : option string) : bool :=
  match a, b with
  | Some x, Some y => negb (String.eqb x y)
  | None, None => false
  | _, _ => true
  end.

(** [l.indexOf(x)] for an array of strings [l] and [x : string | undefined],
    counting from [i]. *)
Fixpoint indexOfFrom (l : list string) (x : option string) (i : Z) : Z :=
  match l with
  | [] => (-1)%Z
  | y :: l' => if strictNeq (Some y) x then indexOfFrom l' x (i + 1)%Z else i
  end.

Definition indexOf (l : list string) (x : option string) : Z :=
  indexOfFrom l x 0%Z.

(** [`${x}`] for [x : string | undefined]. *)
Definition interpolate (x : option string) : string :=
  match x with
  | Some s => s
  | None => "undefined"
  end.

End Js.

Import Js.

(** ** Data model *)

(** [string | string[]]. *)
Inductive patterns : Type :=
| One (pattern : string)
| Many (list_ : list string).

Record CliLintConfig : Type := mkConfig {
  files : option patterns;
  project : option string;
  tslintConfig : option string;
  exclude : option patterns
}.

(** The object a caller passes to [run]. [format], [silent] and [typeCheck]
    are optional keys, so each of them may be missing, or present and
    [undefined]. *)
Record OptionsArg : Type := mkArg {
  arg_fix : bool;
  arg_force : bool;
  arg_format : prop string;
  arg_silent : prop bool;
  arg_typeCheck : prop bool;
  arg_configs : option (list CliLintConfig)
}.

(** The local [options] of [run] after line 35. ([fix] is a keyword of Rocq,
    hence [fix_].) *)
Record LintTaskOptions : Type := mkOptions {
  fix_ : bool;
  force : bool;
  format : option string;
  silent : option bool;
  typeCheck : option bool;
  configs : option (list CliLintConfig)
}.

(** [{ ...new LintTaskOptions(), ...options }]: the class initialises
    [format], [silent] and [typeCheck] only. *)
Definition spreadOptions (o : OptionsArg) : LintTaskOptions :=
  {| fix_ := arg_fix o;
     force := arg_force o;
     format := spread (Some "prose") (arg_format o);
     silent := spread (Some false) (arg_silent o);
     typeCheck := spread (Some false) (arg_typeCheck o);
     configs := arg_configs o |}.

(** What [linter.getResult()] gives, as far as the task reads it, and the
    accumulator of the [reduce]. *)
Record LintResult (F X : Type) : Type := mkResult {
  failures : list F;
  fixes : option (list X)
}.
Arguments mkResult {F X} failures fixes.
Arguments failures {F X} _.
Arguments fixes {F X} _.

(** The second argument of [glob.sync]. *)
Record GlobOptions : Type := mkGlob {
  ignore : option (list string);
  nodir : bool
}.

(** The first argument of [new Linter]. *)
Record LintOptions : Type := mkLintOptions {
  lo_fix : bool;
  lo_formatter : option string
}.

(** ** Console text, errors and observable events *)

Inductive color : Type := yellow | red | green.

(** A string, possibly wrapped by [chalk]. *)
Inductive text : Type :=
| Plain (s : string)
| Chalk (c : color) (s : string).

Inductive exn : Type :=
| SilentError (message : text)
| TypeError
| LibraryError (message : string).

Inductive event : Type :=
| WriteLine (t : text)
| RequireProjectModule (root name : string)
| CreateProgram (projectFile : string)
| ReadFile (file : string) (ok : bool)
| FindConfiguration (configFile : option string) (file : string)
| Lint (file : string) (contents : option string).

(** ** The collaborators *)

Record Env : Type := mkEnv {
  (** the file system and whatever else the collaborators read and write *)
  World : Type;
  Program : Type;
  Failure : Type;
  AppliedFix : Type;
  ConfigLoad : Type;
  RuleConfig : Type;
  LinterObj : Type;
  (** [fs], [strip-bom], [glob], [path], [semver] *)
  readFileSync : World -> string -> option string;
  stripBom : string -> string;
  glob_sync : World -> string -> GlobOptions -> list string;
  dirname : string -> string;
  satisfies : string -> string -> bool;
  (** the project's [tslint] module *)
  Linter_VERSION : string;
  Linter_createProgram : World -> string -> Program;
  Linter_getFileNames : Program -> list string;
  Linter_new : LintOptions -> option Program -> LinterObj;
  Linter_lint :
    LinterObj -> string -> option string -> RuleConfig -> World -> World * LinterObj;
  Linter_getResult : LinterObj -> string + LintResult Failure AppliedFix;
  findConfiguration : World -> option string -> string -> ConfigLoad;
  results : ConfigLoad -> RuleConfig;
  findFormatter :
    option string ->
    string + option (list Failure -> option (list AppliedFix) -> string);
  (** [ef.equals(cf)] *)
  equals : Failure -> Failure -> bool
}.

(** ** A monad for the effects of the task

    A computation starts in a world and gives the events it caused, the
    world it leaves, and either a thrown exception or a value. *)

Record Res (W A : Type) : Type := mkRes {
  trace : list event;
  world : W;
  outcome : exn + A
}.
Arguments mkRes {W A} trace world outcome.
Arguments trace {W A} _.
Arguments world {W A} _.
Arguments outcome {W A} _.

Definition M (W A : Type) : Type := W -> Res W A.

Definition ret {W A : Type} (a : A) : M W A :=
  fun w => mkRes [] w (inr a).

Definition throw {W A : Type} (e : exn) : M W A :=
  fun w => mkRes [] w (inl e).

Definition bind {W A B : Type} (m : M W A) (k : A -> M W B) : M W B :=
  fun w =>
    let r := m w in
    match outcome r with
    | inl e => mkRes (trace r) (world r) (inl e)
    | inr a =>
        let r' := k a (world r) in
        mkRes (trace r ++ trace r')%list (world r') (outcome r')
    end.

Definition emit {W : Type} (ev : event) : M W unit :=
  fun w => mkRes [ev] w (inr tt).

Definition reads {W A : Type} (f : W -> A) : M W A :=
  fun w => mkRes [] w (inr (f w)).

Declare Scope task_scope.
Delimit Scope task_scope with task.
Notation "x <- m ;; k" := (bind m (fun x => k))
  (at level 61, m at next level, right associativity) : task_scope.
Notation "m ;; k" := (bind m (fun _ => k))
  (at level 61, right associativity) : task_scope.
Local Open Scope task_scope.

(** ** The task *)

Section Task.

Variable E : Env.
(** [this.project.root] *)
Variable projectRoot : string.

Local Abbreviation Result := (LintResult (Failure E) (AppliedFix E)).
Local Abbreviation Task := (M (World E)).

(** [ui.writeLine] *)
Definition writeLine (t : text) : Task unit := emit (WriteLine t).

Definition asList (p : patterns) : list string :=
  match p with
  | One s => [s]
  | Many l => l
  end.

(** ToBoolean on [string | string[] | undefined]: an array is always
    truthy, a string when it is not empty. *)
Definition truthyPatterns (p : option patterns) : option patterns :=
  match p with
  | Some (One s) => if nonEmpty s then Some (One s) else None
  | Some (Many l) => Some (Many l)
  | None => None
  end.

Definition globOptionsOf (lintConfig : CliLintConfig) : GlobOptions :=
  match truthyPatterns (exclude lintConfig) with
  | Some excludePatterns =>
      {| ignore := Some (asList excludePatterns); nodir := true |}
  | None => {| ignore := None; nodir := false |}
  end.

Definition getFilesToLint (w : World E) (program : option (Program E))
    (lintConfig : CliLintConfig) : list string :=
  let files0 :=
    match truthyPatterns (files lintConfig) with
    | Some fs => asList fs
    | None =>
        match program with
        | Some p => Linter_getFileNames E p
        | None => []
        end
    end in
  let globOptions := globOptionsOf lintConfig in
  fold_left (fun a b : list string => (a ++ b)%list)
    (map (fun file => glob_sync E w file globOptions) files0) [].

Definition couldNotRead (file : string) : exn :=
  SilentError (Plain ("Could not read file " ++ dq ++ file ++ dq ++ ".")).

Definition getFileContents (file : string) : Task string :=
  fun w =>
    match readFileSync E w file with
    | Some s => mkRes [ReadFile file true] w (inr (stripBom E s))
    | None => mkRes [ReadFile file false] w (inl (couldNotRead file))
    end.

Definition createProgram (projectFile : string) : Task (Program E) :=
  emit (CreateProgram projectFile) ;;
  reads (fun w => Linter_createProgram E w projectFile).

Definition loadConfiguration (configFile : option string) (file : string)
    : Task (ConfigLoad E) :=
  emit (FindConfiguration configFile file) ;;
  reads (fun w => findConfiguration E w configFile file).

Definition lint (linter : LinterObj E) (file : string)
    (fileContents : option string) (rules : RuleConfig E) : Task (LinterObj E) :=
  fun w =>
    let (w', linter') := Linter_lint E linter file fileContents rules w in
    mkRes [Lint file fileContents] w' (inr linter').

(** The [for (const file of files)] loop; [lastDirectory] and [configLoad]
    are the two variables declared before it. Reading [configLoad.results]
    while [configLoad] is still [undefined] would be a [TypeError]. *)
Fixpoint lintFiles (program : option (Program E)) (config : CliLintConfig)
    (linter : LinterObj E) (lastDirectory : option string)
    (configLoad : option (ConfigLoad E)) (files : list string)
    : Task (LinterObj E) :=
  match files with
  | [] => ret linter
  | file :: rest =>
      fileContents <-
        match program with
        | Some _ => ret None
        | None => c <- getFileContents file ;; ret (Some c)
        end ;;
      let currentDirectory := dirname E file in
      st <-
        (if strictNeq (Some currentDirectory) lastDirectory
         then
           c <- loadConfiguration (tslintConfig config) file ;;
           ret (Some c, Some currentDirectory)
         else ret (configLoad, lastDirectory)) ;;
      match fst st with
      | None => throw TypeError
      | Some c =>
          linter' <- lint linter file fileContents (results E c) ;;
          lintFiles program config linter' (snd st) (fst st) rest
      end
  end.

(** [linter.getResult()]: the library throws when it cannot build the
    result, as it does for a formatter it does not find. *)
Definition getResult (linter : LinterObj E) : Task Result :=
  match Linter_getResult E linter with
  | inl message => throw (LibraryError message)
  | inr r => ret r
  end.

Definition typeCheckWarning : text :=
  Chalk yellow
    ("A " ++ dq ++ "project" ++ dq ++ " must be specified to enable type checking.").

(** The callback of [lintConfigs.map]. *)
Definition lintConfig (options : LintTaskOptions) (config : CliLintConfig)
    : Task Result :=
  program <-
    match truthyString (project config) with
    | Some p => prog <- createProgram p ;; ret (Some prog)
    | None =>
        (if truthy (typeCheck options)
         then if negb (truthy (silent options))
              then writeLine typeCheckWarning
              else ret tt
         else ret tt) ;;
        ret None
    end ;;
  files <- reads (fun w => getFilesToLint w program config) ;;
  let lintOptions :=
    {| lo_fix := fix_ options; lo_formatter := format options |} in
  let program' :=
    if satisfies E (Linter_VERSION E) "< 5.5" && negb (truthy (typeCheck options))
    then None
    else program in
  let linter := Linter_new E lintOptions program' in
  linter' <- lintFiles program' config linter None None files ;;
  getResult linter'.

(** [lintConfigs.map(...)]: the configs are linted one after the other. *)
Fixpoint lintAll (options : LintTaskOptions) (lintConfigs : list CliLintConfig)
    : Task (list Result) :=
  match lintConfigs with
  | [] => ret []
  | config :: rest =>
      r <- lintConfig options config ;;
      rs <- lintAll options rest ;;
      ret (r :: rs)
  end.

(** [total.failures.some(ef => ef.equals(cf))] *)
Definition known (total : list (Failure E)) (cf : Failure E) : bool :=
  existsb (fun ef => equals E ef cf) total.

(** The callback of [reduce]. *)
Definition mergeStep (total current : Result) : Result :=
  let failures' := filter (fun cf => negb (known (failures total) cf)) (failures current) in
  let total1 := mkResult (failures total ++ failures')%list (fixes total) in
  match fixes current with
  | Some currentFixes =>
      mkResult (failures total1)
        (Some (match fixes total1 with Some t => t | None => [] end ++ currentFixes)%list)
  | None => total1
  end.

Definition emptyResult : Result := mkResult [] None.

Definition mergeResults (rs : list Result) : Result :=
  fold_left mergeStep rs emptyResult.

Definition humanReadable : list string := ["prose"; "verbose"; "stylish"].

Definition noConfigWarning : text := Chalk yellow "No lint configuration(s) found.".
Definition failureBanner : text := Chalk red "Lint errors found in the listed files.".
Definition successBanner : text := Chalk green "All files pass linting.".

Definition invalidFormat (fmt : option string) : exn :=
  SilentError
    (Chalk red ("Invalid lint format " ++ dq ++ interpolate fmt ++ dq ++ ".")).

(** Lines 107 to 118. *)
Definition report (options : LintTaskOptions) (result : Result) : Task unit :=
  if negb (truthy (silent options))
  then
    match findFormatter E (format options) with
    | inl message => throw (LibraryError message)
    | inr None => throw (invalidFormat (format options))
    | inr (Some formatter) =>
        let output := formatter (failures result) (fixes result) in
        if nonEmpty output then writeLine (Plain output) else ret tt
    end
  else ret tt.

(** Lines 120 to 136. The value is the one the returned promise resolves to. *)
Definition exitCode (options : LintTaskOptions) (result : Result) : Task Z :=
  if (indexOf humanReadable (format options) =? -1)%Z
  then
    if (List.length (failures result) =? 0)%nat || force options
    then ret 0%Z
    else ret 2%Z
  else
    if (0 <? List.length (failures result))%nat
    then
      (if negb (truthy (silent options)) then writeLine failureBanner else ret tt) ;;
      (if force options then ret 0%Z else ret 2%Z)
    else
      (if negb (truthy (silent options)) then writeLine successBanner else ret tt) ;;
      ret 0%Z.

(** [options.configs || []] *)
Definition configsOf (options : LintTaskOptions) : list CliLintConfig :=
  match configs options with
  | Some l => l
  | None => []
  end.

Definition run (arg : OptionsArg) : Task Z :=
  let options := spreadOptions arg in
  let lintConfigs := configsOf options in
  if (List.length lintConfigs =? 0)%nat
  then
    (if negb (truthy (silent options)) then writeLine noConfigWarning else ret tt) ;;
    ret 0%Z
  else
    emit (RequireProjectModule projectRoot "tslint") ;;
    rs <- lintAll options lintConfigs ;;
    let result := mergeResults rs in
    report options result ;;
    exitCode options result.

End Task.

Arguments writeLine {E} t.
Arguments mergeStep {E} total current.
Arguments mergeResults {E} rs.
Arguments emptyResult {E}.
Arguments known {E} total cf.

(** ** How often a failure occurs in a list, up to [equals] *)

Section Occurrences.

Variable E : Env.

(** The number of entries [g] of [l] with [g.equals(f)]. *)
Definition occurrences (l : list (Failure E)) (f : Failure E) : nat :=
  List.length (filter (fun g => equals E g f) l).

(** No entry of [l] equals a later one. *)
Fixpoint dupFree (l : list (Failure E)) : bool :=
  match l with
  | [] => true
  | g :: l' => negb (existsb (fun h => equals E g h) l') && dupFree l'
  end.

(** [equals] is an equivalence: what makes it an equality comparison. *)
Record EqualsLaws : Prop := mkLaws {
  equals_refl : forall f, equals E f f = true;
  equals_sym : forall f g, equals E f g = equals E g f;
  equals_trans :
    forall f g h, equals E f g = true -> equals E g h = true -> equals E f h = true
}.

(** The linter library resolves the three formatters it ships and the task
    calls human readable. *)
Definition knowsBuiltinFormatters : Prop :=
  forall name, In name humanReadable ->
    exists formatter, findFormatter E (Some name) = inr (Some formatter).

(** The library finds a formatter for [fmt]. *)
Definition knowsFormat (fmt : option string) : Prop :=
  exists formatter, findFormatter E fmt = inr (Some formatter).

End Occurrences.

Arguments occurrences {E} l f.
Arguments dupFree {E} l.

(** ** A small concrete environment

    A world is a list of paths with their contents ([None]: the file is
    there and cannot be read). The toy linter has one rule: a file whose
    text is [bad] fails at position 0; with [fix] it is rewritten to [good]
    and reported as fixed instead. *)

Module Toy.

Definition World : Type := list (string * option string).

Fixpoint lookup (w : World) (file : string) : option string :=
  match w with
  | [] => None
  | (p, c) :: w' => if String.eqb p file then c else lookup w' file
  end.

Fixpoint update (w : World) (file : string) (c : string) : World :=
  match w with
  | [] => []
  | (p, c0) :: w' =>
      if String.eqb p file then (p, Some c) :: w' else (p, c0) :: update w' file c
  end.

Definition mem (s : string) (l : list string) : bool :=
  existsb (String.eqb s) l.

(** A pattern is a path, or [*] for every path. *)
Definition glob_sync (w : World) (pattern : string) (o : GlobOptions) : list string :=
  filter
    (fun p =>
       (String.eqb pattern "*" || String.eqb pattern p)
       && negb (match ignore o with Some l => mem p l | None => false end))
    (map fst w).

(** The text before the last slash of [s]; [acc] holds what was read since
    the start, [dir] the text before the last slash seen. *)
Fixpoint dirnameFrom (s acc : string) (dir : option string) : string :=
  match s with
  | EmptyString => match dir with Some d => d | None => "." end
  | String c s' =>
      if Ascii.eqb c "/"%char
      then dirnameFrom s' (acc ++ String c EmptyString) (Some acc)
      else dirnameFrom s' (acc ++ String c EmptyString) dir
  end.

Definition dirname (s : string) : string := dirnameFrom s EmptyString None.

Definition Failure : Type := (string * nat)%type.

Definition equals (f g : Failure) : bool :=
  String.eqb (fst f) (fst g) && Nat.eqb (snd f) (snd g).

Record LinterObj : Type := mkLinter {
  options : LintOptions;
  program : option (list string);
  found : list Failure;
  fixed : list string
}.

Definition lint (l : LinterObj) (file : string) (contents : option string)
    (rules : unit) (w : World) : World * LinterObj :=
  let source :=
    match contents with
    | Some s => Some s
    | None => lookup w file
    end in
  match source with
  | Some s =>
      if String.eqb s "bad"
      then
        if lo_fix (options l)
        then (update w file "good",
              mkLinter (options l) (program l) (found l) (fixed l ++ [file]))
        else (w, mkLinter (options l) (program l) (found l ++ [(file, 0)]) (fixed l))
      else (w, l)
  | None => (w, l)
  end.

Definition formatters : list string := ["prose"; "verbose"; "stylish"; "json"].

Definition formatter (fs : list Failure) (fx : option (list string)) : string :=
  String.concat ";" (map fst fs).

(** As the library does, [getResult] formats what was found with the
    formatter the linter was built for, prose when none was named, and
    throws when it does not find it; [findFormatter] gives nothing for a
    name it does not have, and throws when given no name at all. *)
Definition getResult (l : LinterObj) : string + LintResult Failure string :=
  let name :=
    match lo_formatter (options l) with
    | Some n => n
    | None => "prose"
    end in
  if mem name formatters
  then inr (mkResult (found l) (Some (fixed l)))
  else inl ("formatter '" ++ name ++ "' not found").

Definition findFormatter (name : option string)
    : string + option (list Failure -> option (list string) -> string) :=
  match name with
  | Some n => inr (if mem n formatters then Some formatter else None)
  | None => inl "Name of type undefined is not supported."
  end.

Definition env : Env :=
  mkEnv
    World (list string) Failure string (option string) unit LinterObj
    lookup
    (fun s => s)
    glob_sync
    dirname
    (fun _ _ => false)
    "5.9.1"
    (fun w _ => map fst w)
    (fun p => p)
    (fun o p => mkLinter o p [] [])
    lint
    getResult
    (fun _ c _ => c)
    (fun _ => tt)
    findFormatter
    equals.

Definition disk : World :=
  [("src/a.ts", Some "bad"); ("src/b.ts", Some "fine"); ("src/locked.ts", None)].

Definition config (fs : list string) : CliLintConfig :=
  {| files := Some (Many fs); project := None; tslintConfig := None; exclude := None |}.

Definition arg (fmt : prop string) (quiet : prop bool) (frc : bool)
    (cs : list CliLintConfig) : OptionsArg :=
  {| arg_fix := false; arg_force := frc; arg_format := fmt; arg_silent := quiet;
     arg_typeCheck := Absent; arg_configs := Some cs |}.

Definition exec (a : OptionsArg) : Res World Z := run env "/project" a disk.

(** Inputs of the examples. *)

(** One config, one file that fails; every option at its default. *)
Definition failing : OptionsArg := arg Absent Absent false [config ["src/a.ts"]].





(** A machine format and a file that passes. *)
Definition jsonClean : OptionsArg :=
  arg (Value "json") Absent true [config ["src/b.ts"]].

(** [format] present and undefined, silently, on a file that fails. *)
Definition undefinedFormat : OptionsArg :=
  arg Undefined (Value true) false [config ["src/a.ts"]].


(** No config at all. *)
Definition noConfigs : OptionsArg := arg Absent Absent false [].

(** The first config names the failing file twice, the second once. *)
Definition twice : OptionsArg :=
  arg Absent Absent false [config ["src/a.ts"; "src/a.ts"]; config ["src/a.ts"]].

Definition failureA : Failure := ("src/a.ts", 0).
Definition failureB : Failure := ("src/b.ts", 0).

(** A config whose [files] is the empty string, with a project. *)
Definition emptyFiles : CliLintConfig :=
  {| files := Some (One EmptyString); project := Some "tsconfig.json";
     tslintConfig := None; exclude := None |}.

(** More inputs: a world with two directories, *)
Definition tree : World :=
  [("src/a.ts", Some "bad"); ("src/b.ts", Some "fine");
   ("test/c.ts", Some "bad"); ("src/d.ts", Some "fine")].

(** a config with a project and no files, *)
Definition withProject : CliLintConfig :=
  {| files := None; project := Some "tsconfig.json";
     tslintConfig := Some "tslint.json"; exclude := None |}.

(** a run that asks for a type check, with and without a project, *)
Definition typeChecked : OptionsArg :=
  {| arg_fix := false; arg_force := false; arg_format := Absent;
     arg_silent := Absent; arg_typeCheck := Value true;
     arg_configs := Some [config ["src/b.ts"]; withProject; config ["src/a.ts"]] |}.

(** a silent run on a file that fails, *)
Definition silentFailing : OptionsArg :=
  arg Absent (Value true) false [config ["src/a.ts"]].

(** a forced run on a file that fails, *)
Definition forcedFailing : OptionsArg :=
  arg (Value "verbose") Absent true [config ["src/a.ts"]].

(** two configs over the two directories of [tree], *)
Definition twoConfigs : OptionsArg :=
  arg Absent Absent false
    [config ["src/a.ts"; "*"]; config ["test/c.ts"; "src/d.ts"]].


Definition failureC : Failure := ("test/c.ts", 0).

(** The toy environment with a linter that never writes a fix back. *)
Definition readOnlyEnv : Env :=
  mkEnv
    World (list string) Failure string (option string) unit LinterObj
    lookup
    (fun s => s)
    glob_sync
    dirname
    (fun _ _ => false)
    "5.9.1"
    (fun w _ => map fst w)
    (fun p => p)
    (fun o p => mkLinter o p [] [])
    (fun l file contents rules w => (w, snd (lint l file contents rules w)))
    getResult
    (fun _ c _ => c)
    (fun _ => tt)
    findFormatter
    equals.


(** [format] present and undefined, aloud, on a file that passes. *)
Definition undefinedLoud : OptionsArg :=
  arg Undefined (Value false) false [config ["src/b.ts"]].


(** Three results for the merge. *)
Definition resultA : LintResult Failure string :=
  mkResult [failureA; failureB] (Some ["src/a.ts"]).
Definition resultB : LintResult Failure string :=
  mkResult [failureB; failureC] None.
Definition resultC : LintResult Failure string :=
  mkResult [failureA] (Some []).

End Toy.

(** ** What a computation can be observed to do *)

(** Every event [m] causes satisfies [P]. *)
Definition Emits {W A : Type} (P : event -> Prop) (m : M W A) : Prop :=
  forall w ev, In ev (trace (m w)) -> P ev.

(** Every exception [m] throws satisfies [P]. *)
Definition Throws {W A : Type} (P : exn -> Prop) (m : M W A) : Prop :=
  forall w e, outcome (m w) = inl e -> P e.


(** The events of the linting of the configs: no console line but the
    warning about type checking, and the module is not loaded again. *)
Definition lintEvent (ev : event) : Prop :=
  match ev with
  | WriteLine t => t = typeCheckWarning
  | RequireProjectModule _ _ => False
  | _ => True
  end.

(** The events of reporting: console lines only. *)
Definition consoleEvent (ev : event) : Prop :=
  match ev with
  | WriteLine _ => True
  | _ => False
  end.

(** Every value [m] returns satisfies [Q]. *)
Definition Returns {W A : Type} (Q : A -> Prop) (m : M W A) : Prop :=
  forall w a, outcome (m w) = inr a -> Q a.

(** [m] leaves the world as it found it. *)
Definition KeepsWorld {W A : Type} (m : M W A) : Prop :=
  forall w, world (m w) = w.

(** The linter only reads: linting a file changes nothing in the world (as
    when no fix is written back). *)
Definition linterReadsOnly (E : Env) : Prop :=
  forall linter file contents rules w,
    fst (Linter_lint E linter file contents rules w) = w.

(** The error of a file that could not be read. *)
Definition readError (e : exn) : Prop := exists f, e = couldNotRead f.

(** The errors the linting of the configs can throw: that of a file that
    could not be read, or one the library throws. *)
Definition lintingError (e : exn) : Prop :=
  readError e \/ exists message, e = LibraryError message.

(** ** Reading a trace *)

(** The files handed to [linter.lint], in order. *)
Definition lintedFiles (tr : list event) : list string :=
  flat_map (fun ev => match ev with Lint file _ => [file] | _ => [] end) tr.

(** The files [getFileContents] was called on, in order. *)
Definition filesRead (tr : list event) : list string :=
  flat_map (fun ev => match ev with ReadFile file _ => [file] | _ => [] end) tr.

(** The calls of [Configuration.findConfiguration], in order. *)
Definition lookups (tr : list event) : list (option string * string) :=
  flat_map
    (fun ev => match ev with FindConfiguration c file => [(c, file)] | _ => [] end) tr.

(** The lines given to [ui.writeLine], in order. *)
Definition consoleLines (tr : list event) : list text :=
  flat_map (fun ev => match ev with WriteLine t => [t] | _ => [] end) tr.

(** The calls of [requireProjectModule], in order. *)
Definition moduleLoads (tr : list event) : list (string * string) :=
  flat_map
    (fun ev => match ev with RequireProjectModule r n => [(r, n)] | _ => [] end) tr.

(** Reference for the lookups of the loop: the files of [fs] whose directory
    is not that of the file before them, [last] being the directory before
    the first. *)
Fixpoint directoryChanges (dir : string -> string) (last : option string)
    (fs : list string) : list string :=
  match fs with
  | [] => []
  | file :: rest =>
      if strictNeq (Some (dir file)) last
      then file :: directoryChanges dir (Some (dir file)) rest
      else directoryChanges dir last rest
  end.

(** The program [lintConfig] creates for a config in world [w], if any. *)
Definition createdProgram (E : Env) (w : World E) (config : CliLintConfig)
    : option (Program E) :=
  match truthyString (project config) with
  | Some p => Some (Linter_createProgram E w p)
  | None => None
  end.

(** Whether the linter of a config is built without a program: there is no
    project, or the library is older than 5.5 and no type check is asked. *)
Definition lintsWithoutProgram (E : Env) (options : LintTaskOptions)
    (config : CliLintConfig) : bool :=
  match truthyString (project config) with
  | Some _ =>
      satisfies E (Linter_VERSION E) "< 5.5" && negb (truthy (typeCheck options))
  | None => true
  end.

(** Whether linting a config starts with the warning about type checking. *)
Definition warnsAboutProject (options : LintTaskOptions) (config : CliLintConfig)
    : bool :=
  match truthyString (project config) with
  | Some _ => false
  | None => truthy (typeCheck options) && negb (truthy (silent options))
  end.

(** The fixes of a result, none counting as the empty list. *)
Definition fixesOf {F X : Type} (r : LintResult F X) : list X :=
  match fixes r with
  | Some l => l
  | None => []
  end.

(** Whether a result has fixes at all. *)
Definition hasFixes {F X : Type} (r : LintResult F X) : bool :=
  match fixes r with
  | Some _ => true
  | None => false
  end.

(** Whenever [m] throws, it throws what the library threw, or the error
    naming a file after a read of that file has failed. *)
Definition BlamesFailedRead {W A : Type} (m : M W A) : Prop :=
  forall w e,
    outcome (m w) = inl e ->
    (exists message, e = LibraryError message)
    \/ exists f, e = couldNotRead f /\ In (ReadFile f false) (trace (m w)).

(** * Properties *)

(** ** The monad *)

Section MonadFacts.

Context {W : Type}.

Lemma bind_throws {A B : Type} (m : M W A) (k : A -> M W B) (w : W) (e : exn) :
  outcome (m w) = inl e ->
  bind m k w = mkRes (trace (m w)) (world (m w)) (inl e).
Proof. intros H. unfold bind. now rewrite H. Qed.

Lemma bind_returns {A B : Type} (m : M W A) (k : A -> M W B) (w : W) (a : A) :
  outcome (m w) = inr a ->
  bind m k w =
  mkRes (trace (m w) ++ trace (k a (world (m w))))%list
    (world (k a (world (m w)))) (outcome (k a (world (m w)))).
Proof. intros H. unfold bind. now rewrite H. Qed.

Lemma Emits_ret {A : Type} (P : event -> Prop) (a : A) : Emits P (@ret W A a).
Proof. intros w ev []. Qed.

Lemma Emits_throw {A : Type} (P : event -> Prop) (e : exn) : Emits P (@throw W A e).
Proof. intros w ev []. Qed.

Lemma Emits_reads {A : Type} (P : event -> Prop) (f : W -> A) : Emits P (reads f).
Proof. intros w ev []. Qed.

Lemma Emits_emit (P : event -> Prop) (ev : event) : P ev -> Emits P (@emit W ev).
Proof. intros H w ev' [<- | []]. exact H. Qed.

Lemma Emits_bind {A B : Type} (P : event -> Prop) (m : M W A) (k : A -> M W B) :
  Emits P m -> (forall a, Emits P (k a)) -> Emits P (bind m k).
Proof.
  intros Hm Hk w ev. unfold bind.
  destruct (outcome (m w)) as [e | a] eqn:Hout; simpl.
  - apply Hm.
  - intros Hin. apply in_app_or in Hin. destruct Hin as [Hin | Hin].
    + now apply (Hm w).
    + now apply (Hk a (world (m w))).
Qed.

Lemma Emits_weaken {A : Type} (P Q : event -> Prop) (m : M W A) :
  (forall ev, P ev -> Q ev) -> Emits P m -> Emits Q m.
Proof. intros HPQ Hm w ev Hin. apply HPQ. now apply (Hm w). Qed.

Lemma Throws_ret {A : Type} (P : exn -> Prop) (a : A) : Throws P (@ret W A a).
Proof. intros w e H. discriminate H. Qed.

Lemma Throws_reads {A : Type} (P : exn -> Prop) (f : W -> A) : Throws P (reads f).
Proof. intros w e H. discriminate H. Qed.

Lemma Throws_emit (P : exn -> Prop) (ev : event) : Throws P (@emit W ev).
Proof. intros w e H. discriminate H. Qed.

Lemma Throws_throw {A : Type} (P : exn -> Prop) (e : exn) :
  P e -> Throws P (@throw W A e).
Proof. intros H w e' Heq. simpl in Heq. now inversion Heq; subst. Qed.

Lemma Throws_bind {A B : Type} (P : exn -> Prop) (m : M W A) (k : A -> M W B) :
  Throws P m -> (forall a, Throws P (k a)) -> Throws P (bind m k).
Proof.
  intros Hm Hk w e. unfold bind.
  destruct (outcome (m w)) as [e' | a] eqn:Hout; simpl.
  - intros Heq. inversion Heq; subst. now apply (Hm w).
  - apply Hk.
Qed.

Lemma Throws_weaken {A : Type} (P Q : exn -> Prop) (m : M W A) :
  (forall e, P e -> Q e) -> Throws P m -> Throws Q m.
Proof. intros HPQ Hm w e Hout. apply HPQ. now apply (Hm w). Qed.

Lemma Returns_ret {A : Type} (Q : A -> Prop) (a : A) : Q a -> Returns Q (@ret W A a).
Proof. intros H w a' Heq. simpl in Heq. now inversion Heq; subst. Qed.

Lemma Returns_bind {A B : Type} (Q : B -> Prop) (m : M W A) (k : A -> M W B) :
  (forall a, Returns Q (k a)) -> Returns Q (bind m k).
Proof.
  intros Hk w b. unfold bind.
  destruct (outcome (m w)) as [e | a] eqn:Hout; simpl.
  - discriminate.
  - apply Hk.
Qed.

(** The rule for [bind] when the continuation needs to know what [m] returned. *)
Lemma Throws_bind_post {A B : Type} (P : exn -> Prop) (Q : A -> Prop)
    (m : M W A) (k : A -> M W B) :
  Throws P m -> Returns Q m -> (forall a, Q a -> Throws P (k a)) ->
  Throws P (bind m k).
Proof.
  intros Hm Hq Hk w e. unfold bind.
  destruct (outcome (m w)) as [e' | a] eqn:Hout; simpl.
  - intros Heq. inversion Heq; subst. now apply (Hm w).
  - apply Hk. now apply (Hq w).
Qed.



Lemma Keeps_ret {A : Type} (a : A) : KeepsWorld (@ret W A a).
Proof. intros w. reflexivity. Qed.

Lemma Keeps_throw {A : Type} (e : exn) : KeepsWorld (@throw W A e).
Proof. intros w. reflexivity. Qed.

Lemma Keeps_reads {A : Type} (f : W -> A) : KeepsWorld (reads f).
Proof. intros w. reflexivity. Qed.

Lemma Keeps_emit (ev : event) : KeepsWorld (@emit W ev).
Proof. intros w. reflexivity. Qed.

Lemma Keeps_bind {A B : Type} (m : M W A) (k : A -> M W B) :
  KeepsWorld m -> (forall a, KeepsWorld (k a)) -> KeepsWorld (bind m k).
Proof.
  intros Hm Hk w. unfold bind.
  destruct (outcome (m w)) as [e | a]; simpl.
  - apply Hm.
  - rewrite Hk. apply Hm.
Qed.

End MonadFacts.

(** ** The helpers of the task *)

Ltac emits :=
  repeat match goal with
         | |- Emits _ (bind _ _) => apply Emits_bind
         | |- Emits _ (ret _) => apply Emits_ret
         | |- Emits _ (throw _) => apply Emits_throw
         | |- Emits _ (reads _) => apply Emits_reads
         | |- Emits _ (emit _) => apply Emits_emit; simpl; auto
         | |- Emits _ (writeLine _) => apply Emits_emit; simpl; auto
         | |- forall _, _ => intro
         | |- Emits _ (match ?x with _ => _ end) => destruct x
         end.

Ltac throws :=
  repeat match goal with
         | |- Throws _ (bind _ _) => apply Throws_bind
         | |- Throws _ (ret _) => apply Throws_ret
         | |- Throws _ (reads _) => apply Throws_reads
         | |- Throws _ (emit _) => apply Throws_emit
         | |- Throws _ (writeLine _) => apply Throws_emit
         | |- forall _, _ => intro
         | |- Throws _ (match ?x with _ => _ end) => destruct x
         end.

Ltac keeps :=
  repeat match goal with
         | |- KeepsWorld (bind _ _) => apply Keeps_bind
         | |- KeepsWorld (ret _) => apply Keeps_ret
         | |- KeepsWorld (throw _) => apply Keeps_throw
         | |- KeepsWorld (reads _) => apply Keeps_reads
         | |- KeepsWorld (emit _) => apply Keeps_emit
         | |- KeepsWorld (writeLine _) => apply Keeps_emit
         | |- forall _, _ => intro
         | |- KeepsWorld (match ?x with _ => _ end) => destruct x
         end.

Section TaskFacts.

Variable E : Env.

Local Abbreviation Task := (M (World E)).

Lemma getFileContents_emits (P : event -> Prop) (file : string) :
  (forall ok, P (ReadFile file ok)) -> Emits P (getFileContents E file).
Proof.
  intros HP w ev. unfold getFileContents.
  destruct (readFileSync E w file); simpl; intros [<- | []]; apply HP.
Qed.

Lemma getFileContents_throws (file : string) :
  Throws (fun e => e = couldNotRead file) (getFileContents E file).
Proof.
  intros w e. unfold getFileContents.
  destruct (readFileSync E w file); simpl; intros Heq; now inversion Heq.
Qed.


Lemma lint_emits (P : event -> Prop) linter file contents rules :
  P (Lint file contents) -> Emits P (lint E linter file contents rules).
Proof.
  intros HP w ev. unfold lint.
  destruct (Linter_lint E linter file contents rules w); simpl.
  intros [<- | []]. exact HP.
Qed.

Lemma lint_throws (P : exn -> Prop) linter file contents rules :
  Throws P (lint E linter file contents rules).
Proof.
  intros w e. unfold lint.
  destruct (Linter_lint E linter file contents rules w); simpl. discriminate.
Qed.

Lemma lintFiles_emits program config :
  forall fs linter lastDirectory configLoad,
    Emits lintEvent (lintFiles E program config linter lastDirectory configLoad fs).
Proof.
  induction fs as [| file rest IH]; intros linter ld cl; simpl.
  - apply Emits_ret.
  - apply Emits_bind.
    + destruct program; emits. now apply getFileContents_emits.
    + intros contents. apply Emits_bind.
      * unfold loadConfiguration. emits.
      * intros st. destruct (fst st); [| apply Emits_throw].
        apply Emits_bind; [now apply lint_emits | intro; apply IH].
Qed.

(** The loop never reads [configLoad.results] of an undefined [configLoad],
    and the only error it throws is that of a file it could not read. *)
Lemma lintFiles_throws program config :
  forall fs linter lastDirectory configLoad,
    lastDirectory = None \/ configLoad <> None ->
    Throws (fun e => exists f, In f fs /\ e = couldNotRead f)
      (lintFiles E program config linter lastDirectory configLoad fs).
Proof.
  induction fs as [| file rest IH]; intros linter ld cl Hinv; cbn [lintFiles].
  - apply Throws_ret.
  - apply Throws_bind.
    + destruct program; throws.
      eapply Throws_weaken; [| apply getFileContents_throws].
      intros e ->. exists file. now split; [left |].
    + intros contents.
      apply Throws_bind_post with (Q := fun st => fst st <> None).
      * unfold loadConfiguration. throws.
      * destruct (strictNeq (Some (dirname E file)) ld) eqn:Hdir.
        -- apply Returns_bind. intros c. now apply Returns_ret.
        -- apply Returns_ret. simpl. destruct Hinv as [-> | Hcl]; [discriminate | exact Hcl].
      * intros st Hst. destruct (fst st) eqn:Hfst; [| contradiction].
        apply Throws_bind; [apply lint_throws |].
        intros linter'. eapply Throws_weaken; [| apply IH; right; discriminate].
        intros e [f [Hin ->]]. exists f. now split; [right |].
Qed.


Lemma getResult_emits (P : event -> Prop) linter : Emits P (getResult E linter).
Proof. unfold getResult. emits. Qed.

Lemma getResult_throws linter :
  Throws (fun e => exists message, e = LibraryError message) (getResult E linter).
Proof.
  unfold getResult. destruct (Linter_getResult E linter) as [message | r].
  - apply Throws_throw. now exists message.
  - apply Throws_ret.
Qed.

Lemma lintConfig_emits options config : Emits lintEvent (lintConfig E options config).
Proof.
  unfold lintConfig, createProgram. emits;
    [apply lintFiles_emits | apply getResult_emits].
Qed.

Lemma lintConfig_throws options config :
  Throws lintingError (lintConfig E options config).
Proof.
  unfold lintConfig, createProgram. throws.
  - eapply Throws_weaken; [| apply lintFiles_throws; now left].
    intros e [f [_ ->]]. left. now exists f.
  - eapply Throws_weaken; [| apply getResult_throws].
    intros e He. now right.
Qed.


Lemma lintAll_emits options : forall cs, Emits lintEvent (lintAll E options cs).
Proof.
  induction cs as [| c cs IH]; simpl; emits; [apply lintConfig_emits | apply IH].
Qed.

Lemma lintAll_throws options : forall cs, Throws lintingError (lintAll E options cs).
Proof.
  induction cs as [| c cs IH]; simpl; throws; [apply lintConfig_throws | apply IH].
Qed.


Lemma report_emits options result : Emits consoleEvent (report E options result).
Proof. unfold report. emits. Qed.

Lemma exitCode_emits options result : Emits consoleEvent (exitCode E options result).
Proof. unfold exitCode. emits. Qed.

Lemma exitCode_throws (P : exn -> Prop) options result :
  Throws P (exitCode E options result).
Proof. unfold exitCode. throws. Qed.

Lemma getFileContents_keeps (file : string) : KeepsWorld (getFileContents E file).
Proof. intros w. unfold getFileContents. now destruct (readFileSync E w file). Qed.

Lemma report_keeps options result : KeepsWorld (report E options result).
Proof. unfold report. keeps. Qed.

Lemma exitCode_keeps options result : KeepsWorld (exitCode E options result).
Proof. unfold exitCode. keeps. Qed.

Section ReadOnlyLinter.

Hypothesis readsOnly : linterReadsOnly E.

Lemma lint_keeps linter file contents rules :
  KeepsWorld (lint E linter file contents rules).
Proof.
  intros w. unfold lint. pose proof (readsOnly linter file contents rules w) as H.
  now destruct (Linter_lint E linter file contents rules w).
Qed.

Lemma lintFiles_keeps program config :
  forall fs linter lastDirectory configLoad,
    KeepsWorld (lintFiles E program config linter lastDirectory configLoad fs).
Proof.
  induction fs as [| file rest IH]; intros linter ld cl; cbn [lintFiles].
  - apply Keeps_ret.
  - apply Keeps_bind.
    + destruct program; keeps. apply getFileContents_keeps.
    + intros contents. apply Keeps_bind.
      * unfold loadConfiguration. keeps.
      * intros st. destruct (fst st); [| apply Keeps_throw].
        apply Keeps_bind; [apply lint_keeps | intro; apply IH].
Qed.

Lemma lintAll_keeps options : forall cs, KeepsWorld (lintAll E options cs).
Proof.
  induction cs as [| c cs IH]; simpl; keeps; [| apply IH].
  unfold lintConfig, createProgram, getResult. keeps. apply lintFiles_keeps.
Qed.

End ReadOnlyLinter.

End TaskFacts.

(** ** Reporting and the exit code *)

Section ReportFacts.

Variable E : Env.
Variable projectRoot : string.

Local Abbreviation Result := (LintResult (Failure E) (AppliedFix E)).

Lemma indexOfFrom_range (x : option string) :
  forall l i, (0 <= i)%Z ->
    indexOfFrom l x i = (-1)%Z \/ (i <= indexOfFrom l x i)%Z.
Proof.
  induction l as [| y l IH]; intros i Hi; cbn [indexOfFrom].
  - now left.
  - destruct (strictNeq (Some y) x).
    + destruct (IH (i + 1)%Z) as [H | H]; [lia | now left | right; lia].
    + right. lia.
Qed.

Lemma indexOfFrom_absent (x : option string) :
  forall l i, (0 <= i)%Z ->
    (indexOfFrom l x i = (-1)%Z <-> forall y, In y l -> x <> Some y).
Proof.
  induction l as [| y l IH]; intros i Hi; cbn [indexOfFrom].
  - split; [intros _ y [] | reflexivity].
  - destruct (strictNeq (Some y) x) eqn:Hneq.
    + rewrite IH by lia. split.
      * intros H z [<- | Hz]; [| now apply H].
        intros ->. simpl in Hneq. now rewrite String.eqb_refl in Hneq.
      * intros H z Hz. apply H. now right.
    + split; [lia |]. intros H. exfalso. apply (H y); [now left |].
      destruct x as [s |]; [| discriminate Hneq].
      simpl in Hneq. apply negb_false_iff, String.eqb_eq in Hneq. now subst.
Qed.

(** [indexOf] answers -1 exactly for the formats that are not human readable. *)
Lemma indexOf_humanReadable (x : option string) :
  indexOf humanReadable x = (-1)%Z <-> forall y, In y humanReadable -> x <> Some y.
Proof. unfold indexOf. apply indexOfFrom_absent. lia. Qed.

Lemma report_silent (o : LintTaskOptions) (res : Result) (w : World E) :
  truthy (silent o) = true -> report E o res w = mkRes [] w (inr tt).
Proof. intros H. unfold report. now rewrite H. Qed.


Lemma report_returns (o : LintTaskOptions) (res : Result) (w : World E) :
  truthy (silent o) = true \/ knowsFormat E (format o) ->
  outcome (report E o res w) = inr tt /\ world (report E o res w) = w.
Proof.
  intros H. unfold report. destruct (truthy (silent o)); simpl; [now split |].
  destruct H as [H | [formatter H]]; [discriminate |].
  rewrite H. now destruct (nonEmpty _).
Qed.

Lemma report_throws (o : LintTaskOptions) (res : Result) :
  Throws
    (fun e =>
       truthy (silent o) = false
       /\ ((e = invalidFormat (format o) /\ findFormatter E (format o) = inr None)
           \/ exists message,
                e = LibraryError message
                /\ findFormatter E (format o) = inl message))
    (report E o res).
Proof.
  intros w e. unfold report. destruct (truthy (silent o)); simpl; [discriminate |].
  destruct (findFormatter E (format o)) as [message | [formatter |]]; simpl.
  - intros Heq. inversion Heq. split; [reflexivity | right]. now exists message.
  - now destruct (nonEmpty _).
  - intros Heq. inversion Heq. split; [reflexivity | now left].
Qed.

(** The formatter's text is the only line [report] writes. *)
Lemma report_plain (o : LintTaskOptions) (res : Result) :
  Emits (fun ev => exists s, ev = WriteLine (Plain s)) (report E o res).
Proof. unfold report. emits. now eexists. Qed.

Lemma exitCode_machine (o : LintTaskOptions) (res : Result) (w : World E) :
  indexOf humanReadable (format o) = (-1)%Z ->
  exitCode E o res w =
  mkRes [] w (inr (if (List.length (failures res) =? 0)%nat || force o then 0 else 2)%Z).
Proof.
  intros H. unfold exitCode. rewrite H. simpl.
  now destruct ((List.length (failures res) =? 0)%nat || force o).
Qed.

Lemma exitCode_human_failures (o : LintTaskOptions) (res : Result) (w : World E) :
  indexOf humanReadable (format o) <> (-1)%Z -> failures res <> [] ->
  exitCode E o res w =
  mkRes (if truthy (silent o) then [] else [WriteLine failureBanner]) w
    (inr (if force o then 0 else 2)%Z).
Proof.
  intros H Hf. unfold exitCode.
  destruct (Z.eqb_spec (indexOf humanReadable (format o)) (-1)) as [Heq | _];
    [contradiction |].
  destruct (failures res) as [| f l]; [contradiction |]. simpl.
  unfold bind, writeLine, emit, ret.
  destruct (truthy (silent o)); simpl; now destruct (force o).
Qed.

(** What [run] does once the config list is known to be empty or not. *)
Lemma run_empty (arg : OptionsArg) (w : World E) :
  configsOf (spreadOptions arg) = [] ->
  run E projectRoot arg w =
  mkRes
    (if truthy (silent (spreadOptions arg)) then [] else [WriteLine noConfigWarning])
    w (inr 0%Z).
Proof.
  intros H. unfold run. rewrite H.
  now destruct (truthy (silent (spreadOptions arg))).
Qed.

Lemma run_aborted (arg : OptionsArg) (w : World E) (e : exn) :
  let o := spreadOptions arg in
  configsOf o <> [] ->
  outcome (lintAll E o (configsOf o) w) = inl e ->
  run E projectRoot arg w =
  mkRes (RequireProjectModule projectRoot "tslint" :: trace (lintAll E o (configsOf o) w))
    (world (lintAll E o (configsOf o) w)) (inl e).
Proof.
  intros o Hne Hout. unfold run. fold o.
  destruct (configsOf o) as [| c cs] eqn:Hcs; [contradiction |].
  cbn [List.length Nat.eqb]. unfold bind at 1. simpl.
  now rewrite bind_throws with (e := e).
Qed.

Lemma run_linted (arg : OptionsArg) (w : World E) (rs : list Result) :
  let o := spreadOptions arg in
  let linted := lintAll E o (configsOf o) w in
  let rest := (report E o (mergeResults rs) ;; exitCode E o (mergeResults rs)) (world linted) in
  configsOf o <> [] ->
  outcome linted = inr rs ->
  run E projectRoot arg w =
  mkRes (RequireProjectModule projectRoot "tslint" :: trace linted ++ trace rest)%list
    (world rest) (outcome rest).
Proof.
  intros o linted rest Hne Hout. unfold run. fold o.
  subst rest linted.
  destruct (configsOf o) as [| c cs] eqn:Hcs; [contradiction |].
  cbn [List.length Nat.eqb]. unfold bind at 1. simpl.
  now rewrite bind_returns with (a := rs).
Qed.

(** Linting no config gives no result to merge. *)
Lemma linted_failures_nonempty (o : LintTaskOptions) (w : World E) (rs : list Result) :
  outcome (lintAll E o (configsOf o) w) = inr rs ->
  failures (mergeResults rs) <> [] ->
  configsOf o <> [].
Proof.
  intros Hout Hf Hnil. rewrite Hnil in Hout. simpl in Hout.
  inversion Hout; subst. now apply Hf.
Qed.

End ReportFacts.

(** ** Merging the results of the configs *)

Section MergeFacts.

Variable E : Env.

Local Abbreviation Result := (LintResult (Failure E) (AppliedFix E)).

Lemma failures_mergeStep (total current : Result) :
  failures (mergeStep total current) =
  (failures total
   ++ filter (fun cf => negb (known (failures total) cf)) (failures current))%list.
Proof. unfold mergeStep. now destruct (fixes current). Qed.

Lemma fixes_mergeStep (total current : Result) :
  fixes (mergeStep total current) =
  match fixes current with
  | Some c => Some (match fixes total with Some t => t | None => [] end ++ c)%list
  | None => fixes total
  end.
Proof. unfold mergeStep. now destruct (fixes current). Qed.

(** Nothing is known yet when the first result is merged: it is kept whole. *)
Lemma failures_mergeStep_empty (r : Result) :
  failures (mergeStep emptyResult r) = failures r.
Proof.
  rewrite failures_mergeStep. simpl.
  induction (failures r) as [| f l IH]; simpl; [reflexivity | now rewrite IH].
Qed.

Lemma occurrences_app (l1 l2 : list (Failure E)) (f : Failure E) :
  occurrences (l1 ++ l2) f = occurrences l1 f + occurrences l2 f.
Proof. unfold occurrences. now rewrite filter_app, length_app. Qed.

Lemma occurrences_known (l : list (Failure E)) (f : Failure E) :
  known l f = negb (occurrences l f =? 0)%nat.
Proof.
  unfold known, occurrences.
  induction l as [| g l IH]; simpl; [reflexivity |].
  destruct (equals E g f); simpl; [reflexivity | exact IH].
Qed.

Lemma known_app (l1 l2 : list (Failure E)) (f : Failure E) :
  known (l1 ++ l2) f = known l1 f || known l2 f.
Proof. unfold known. apply existsb_app. Qed.

Section WithLaws.

Hypothesis laws : EqualsLaws E.

(** Equal failures are known together. *)
Lemma known_equals (l : list (Failure E)) (f g : Failure E) :
  equals E g f = true -> known l g = known l f.
Proof.
  intros Hgf. unfold known.
  induction l as [| h l IH]; simpl; [reflexivity |].
  rewrite IH. f_equal.
  destruct (equals E h g) eqn:Hhg, (equals E h f) eqn:Hhf; try reflexivity.
  - rewrite (equals_trans E laws h g f Hhg Hgf) in Hhf. discriminate.
  - rewrite (equals_sym E laws) in Hgf.
    rewrite (equals_trans E laws h f g Hhf Hgf) in Hhg. discriminate.
Qed.

(** The filter of the merge drops every failure equal to a known one, and
    nothing else. *)
Lemma occurrences_filter_unknown (total current : list (Failure E)) (f : Failure E) :
  occurrences (filter (fun cf => negb (known total cf)) current) f =
  if known total f then 0 else occurrences current f.
Proof.
  unfold occurrences.
  induction current as [| g l IH]; simpl.
  - now destruct (known total f).
  - destruct (equals E g f) eqn:Hgf.
    + rewrite (known_equals total f g Hgf).
      destruct (known total f) eqn:Hk; simpl.
      * exact IH.
      * rewrite Hgf. simpl. now rewrite IH.
    + destruct (known total g); simpl; [exact IH |].
      now rewrite Hgf.
Qed.

Lemma dupFree_occurrences (l : list (Failure E)) (f : Failure E) :
  dupFree l = true -> occurrences l f <= 1.
Proof.
  induction l as [| g l IH]; simpl; intros Hd; [unfold occurrences; simpl; lia |].
  apply andb_true_iff in Hd. destruct Hd as [Hg Hl].
  change (g :: l) with ([g] ++ l)%list. rewrite occurrences_app.
  specialize (IH Hl).
  unfold occurrences at 1. simpl.
  destruct (equals E g f) eqn:Hgf; simpl; [| lia].
  assert (Hk : known l f = false).
  { rewrite <- (known_equals l f g Hgf). unfold known.
    apply negb_true_iff in Hg. rewrite <- Hg.
    clear IH Hl Hg. induction l as [| h l IHl]; simpl; [reflexivity |].
    rewrite IHl. f_equal. apply (equals_sym E laws). }
  rewrite occurrences_known in Hk. apply negb_false_iff, Nat.eqb_eq in Hk. lia.
Qed.

(** Merging a duplicate-free result into a duplicate-free total leaves
    exactly one entry for each failure either of them has. *)
Lemma occurrences_mergeStep (total current : Result) (f : Failure E) :
  (forall g, occurrences (failures total) g <= 1) ->
  dupFree (failures current) = true ->
  occurrences (failures (mergeStep total current)) f =
  if known (failures total ++ failures current) f then 1 else 0.
Proof.
  intros Ht Hc.
  rewrite failures_mergeStep, occurrences_app, occurrences_filter_unknown, known_app.
  pose proof (Ht f) as Htf. pose proof (dupFree_occurrences _ f Hc) as Hcf.
  rewrite !occurrences_known.
  destruct (occurrences (failures total) f) as [| [| n]];
    destruct (occurrences (failures current) f) as [| [| m]]; simpl; lia.
Qed.

Lemma occurrences_fold (f : Failure E) :
  forall (rs : list Result) (total : Result),
    (forall g, occurrences (failures total) g <= 1) ->
    Forall (fun r => dupFree (failures r) = true) rs ->
    occurrences (failures (fold_left mergeStep rs total)) f =
    if known (failures total ++ flat_map failures rs) f
    then 1 else occurrences (failures total) f.
Proof.
  induction rs as [| r rs IH]; intros total Ht Hrs; simpl.
  - rewrite app_nil_r. rewrite occurrences_known.
    pose proof (Ht f). destruct (occurrences (failures total) f) as [| [| n]]; simpl; lia.
  - inversion Hrs as [| r' rs' Hr Hrest]; subst.
    rewrite IH; [| | exact Hrest].
    + rewrite failures_mergeStep at 1.
      rewrite <- app_assoc, !known_app.
      rewrite (occurrences_mergeStep total r f Ht Hr), known_app.
      assert (Hfilter :
        known (filter (fun cf => negb (known (failures total) cf)) (failures r)) f =
        negb (known (failures total) f) && known (failures r) f).
      { rewrite (occurrences_known (filter _ _)), occurrences_filter_unknown.
        rewrite (occurrences_known (failures r)).
        now destruct (known (failures total) f). }
      rewrite Hfilter, (occurrences_known (failures total) f).
      pose proof (Ht f) as Htf.
      destruct (occurrences (failures total) f) as [| [| n]];
        destruct (known (failures r) f), (known (flat_map failures rs) f);
        simpl; try reflexivity; lia.
    + intros g. rewrite (occurrences_mergeStep total r g Ht Hr).
      destruct (known _ g); lia.
Qed.

(** Whatever the number of configs: when no result repeats a failure, the
    merged failures hold exactly one entry for each failure of any result. *)
Lemma occurrences_mergeResults (rs : list Result) (f : Failure E) :
  Forall (fun r => dupFree (failures r) = true) rs ->
  occurrences (failures (mergeResults rs)) f =
  if known (flat_map failures rs) f then 1 else 0.
Proof.
  intros Hrs. unfold mergeResults.
  rewrite occurrences_fold; [reflexivity | | exact Hrs].
  intros g. unfold occurrences. simpl. lia.
Qed.

End WithLaws.

(** The fixes of the merged result are those of the results, one after the
    other; [undefined] as long as no result had any. *)
Lemma fixes_fold :
  forall (rs : list Result) (total : Result),
    fixes (fold_left mergeStep rs total) =
    fold_left
      (fun acc r =>
         match fixes r with
         | Some c => Some (match acc with Some t => t | None => [] end ++ c)%list
         | None => acc
         end)
      rs (fixes total).
Proof.
  induction rs as [| r rs IH]; intros total; simpl; [reflexivity |].
  now rewrite IH, fixes_mergeStep.
Qed.

End MergeFacts.

(** ** The files of a config *)

Section FileFacts.

Variable E : Env.

Lemma fold_left_app_concat (ls : list (list string)) :
  forall acc, fold_left (fun a b : list string => (a ++ b)%list) ls acc
              = (acc ++ List.concat ls)%list.
Proof.
  induction ls as [| l ls IH]; intros acc; simpl.
  - now rewrite app_nil_r.
  - now rewrite IH, app_assoc.
Qed.

(** The [map] and [reduce] of [getFilesToLint] put the expansions of the
    entries one after the other. *)
Lemma getFilesToLint_flat (w : World E) (program : option (Program E))
    (cfg : CliLintConfig) :
  getFilesToLint E w program cfg =
  flat_map (fun file => glob_sync E w file (globOptionsOf cfg))
    match truthyPatterns (files cfg) with
    | Some fs => asList fs
    | None => match program with
              | Some p => Linter_getFileNames E p
              | None => []
              end
    end.
Proof.
  unfold getFilesToLint. rewrite fold_left_app_concat. simpl.
  now rewrite flat_map_concat_map.
Qed.

End FileFacts.

(** ** The toy environment satisfies what the properties assume *)

Lemma Toy_equals_laws : EqualsLaws Toy.env.
Proof.
  split; simpl; unfold Toy.equals.
  - intros [s n]. simpl. now rewrite String.eqb_refl, Nat.eqb_refl.
  - intros [s n] [t m]. simpl. now rewrite String.eqb_sym, Nat.eqb_sym.
  - intros [s n] [t m] [u k]. simpl. intros H1 H2.
    apply andb_true_iff in H1, H2. destruct H1 as [H1 H1'], H2 as [H2 H2'].
    apply String.eqb_eq in H1, H2. apply Nat.eqb_eq in H1', H2'. subst.
    now rewrite String.eqb_refl, Nat.eqb_refl.
Qed.

Lemma Toy_knowsBuiltinFormatters : knowsBuiltinFormatters Toy.env.
Proof.
  intros name H. simpl in H.
  destruct H as [<- | [<- | [<- | []]]]; now exists Toy.formatter.
Qed.

(** * The claims of the specification *)

Section Claims.

Variable E : Env.
Variable projectRoot : string.

Local Abbreviation Result := (LintResult (Failure E) (AppliedFix E)).

(** C7. When the config list is empty (or missing), [run] resolves with exit
    code 0 and leaves the world as it was. The only thing it does is to write
    the warning about the missing configuration, once, unless [silent] is
    set, in which case it does nothing at all: the project's linter module is
    not loaded, no program is created, no file is read and nothing is
    linted. *)
Theorem empty_configs_exit_zero (arg : OptionsArg) (w : World E) :
  configsOf (spreadOptions arg) = [] ->
  run E projectRoot arg w =
  mkRes
    (if truthy (silent (spreadOptions arg)) then [] else [WriteLine noConfigWarning])
    w (inr 0%Z)
  /\ (forall ev, In ev (trace (run E projectRoot arg w)) -> ev = WriteLine noConfigWarning).
Proof.
  intros Hnil. rewrite (run_empty E projectRoot arg w Hnil). split; [reflexivity |].
  cbn [trace]. intros ev. destruct (truthy (silent (spreadOptions arg))); simpl.
  - intros [].
  - now intros [<- | []].
Qed.

(** C3. Let the format be one of prose, verbose and stylish, and let the
    linting of the configs have given a merged result with at least one
    failure. Then [run] resolves with exit code 2 when [force] is false and
    with 0 when it is true, however many failures there are. (The linter
    library is taken to resolve the three formatters it ships.) *)
Theorem human_readable_exit_code (arg : OptionsArg) (w : World E)
    (rs : list Result) (fmt : string) :
  knowsBuiltinFormatters E ->
  format (spreadOptions arg) = Some fmt ->
  In fmt humanReadable ->
  outcome (lintAll E (spreadOptions arg) (configsOf (spreadOptions arg)) w) = inr rs ->
  failures (mergeResults rs) <> [] ->
  outcome (run E projectRoot arg w) = inr (if arg_force arg then 0 else 2)%Z.
Proof.
  intros Hlib Hfmt Hin Hout Hfail.
  pose proof (linted_failures_nonempty E _ w rs Hout Hfail) as Hne.
  rewrite (run_linted E projectRoot arg w rs Hne Hout). cbn [outcome].
  set (o := spreadOptions arg) in *.
  set (w' := world (lintAll E o (configsOf o) w)).
  destruct (report_returns E o (mergeResults rs) w') as [Hrep Hw].
  { right. rewrite Hfmt. now apply Hlib. }
  rewrite (bind_returns _ _ _ tt Hrep). cbn [outcome]. rewrite Hw.
  rewrite exitCode_human_failures; [reflexivity | | exact Hfail].
  rewrite indexOf_humanReadable. intros H. now apply (H fmt Hin).
Qed.

(** The events of [run] when the format is not human readable: no banner. *)
Lemma machine_format_no_banner (arg : OptionsArg) :
  indexOf humanReadable (format (spreadOptions arg)) = (-1)%Z ->
  Emits
    (fun ev => ev <> WriteLine failureBanner /\ ev <> WriteLine successBanner)
    (run E projectRoot arg).
Proof.
  intros Hidx. unfold run.
  destruct (List.length (configsOf (spreadOptions arg)) =? 0)%nat.
  - emits; split; discriminate.
  - apply Emits_bind; [apply Emits_emit; split; discriminate |].
    intros _. apply Emits_bind.
    + eapply Emits_weaken; [| apply lintAll_emits].
      intros [t | | | | |] Hev; simpl in Hev; try (split; discriminate).
      subst t. split; discriminate.
    + intros rs. apply Emits_bind.
      * eapply Emits_weaken; [| apply report_plain].
        intros ev [s ->]. split; discriminate.
      * intros _ w ev. rewrite exitCode_machine by exact Hidx. intros [].
Qed.

(** What [run] resolves to when the format is not human readable, once the
    configs are linted and the report is written. *)
Lemma machine_format_outcome (arg : OptionsArg) (w : World E) (rs : list Result) :
  let o := spreadOptions arg in
  indexOf humanReadable (format o) = (-1)%Z ->
  outcome (lintAll E o (configsOf o) w) = inr rs ->
  truthy (silent o) = true \/ knowsFormat E (format o) ->
  outcome (run E projectRoot arg w) =
  inr (if (List.length (failures (mergeResults rs)) =? 0)%nat || arg_force arg
       then 0 else 2)%Z.
Proof.
  intros o Hidx Hout Hrep.
  destruct (configsOf o) as [| c cs] eqn:Hcs.
  - rewrite (run_empty E projectRoot arg w Hcs).
    simpl in Hout. inversion Hout; subst. reflexivity.
  - assert (Hne : configsOf o <> []) by (rewrite Hcs; discriminate).
    rewrite <- Hcs in Hout.
    rewrite (run_linted E projectRoot arg w rs Hne Hout). cbn [outcome]. fold o.
    set (w' := world (lintAll E o (configsOf o) w)).
    destruct (report_returns E o (mergeResults rs) w' Hrep) as [Hret Hw].
    rewrite (bind_returns _ _ _ tt Hret). cbn [outcome]. rewrite Hw.
    now rewrite exitCode_machine by exact Hidx.
Qed.

(** C9, amended. Let the format be none of prose, verbose and stylish. Then
    [run] writes neither the red nor the green banner, whatever [silent] is.
    If moreover the merged result of the linted configs has no failure, and
    [silent] is set or the linter library knows the format, [run] resolves
    with exit code 0, whatever [force] is. (With [silent] off, a format for
    which [findFormatter] gives nothing, or throws as it does for
    [undefined], ends the run with an error instead.) *)
Theorem machine_format_clean_exit (arg : OptionsArg) (w : World E) :
  (forall y, In y humanReadable -> format (spreadOptions arg) <> Some y) ->
  (forall t, In (WriteLine t) (trace (run E projectRoot arg w)) ->
             t <> failureBanner /\ t <> successBanner)
  /\ (forall rs,
        outcome (lintAll E (spreadOptions arg) (configsOf (spreadOptions arg)) w) = inr rs ->
        failures (mergeResults rs) = [] ->
        truthy (silent (spreadOptions arg)) = true
        \/ knowsFormat E (format (spreadOptions arg)) ->
        outcome (run E projectRoot arg w) = inr 0%Z).
Proof.
  intros Hfmt. apply indexOf_humanReadable in Hfmt. split.
  - intros t Hin.
    destruct (machine_format_no_banner arg Hfmt w _ Hin) as [H1 H2].
    split; congruence.
  - intros rs Hout Hnone Hrep.
    rewrite (machine_format_outcome arg w rs Hfmt Hout Hrep).
    now rewrite Hnone.
Qed.

(** C10. A key that is present with the value [undefined] overwrites the
    default of the class: [format] is then [undefined] and not prose, and
    likewise [silent] and [typeCheck] are [undefined] and not [false]; the
    default is what a missing key gets. An [undefined] format is not found
    among the human readable formats, so the exit code is decided as for a
    machine format: 0 when there is no failure or [force] is set, else 2,
    and no banner is written. *)
Theorem explicit_undefined_overrides_default (arg : OptionsArg) (w : World E)
    (rs : list Result) :
  arg_format arg = Undefined ->
  outcome (lintAll E (spreadOptions arg) (configsOf (spreadOptions arg)) w) = inr rs ->
  truthy (silent (spreadOptions arg)) = true \/ knowsFormat E None ->
  format (spreadOptions arg) = None
  /\ indexOf humanReadable (format (spreadOptions arg)) = (-1)%Z
  /\ outcome (run E projectRoot arg w) =
     inr (if (List.length (failures (mergeResults rs)) =? 0)%nat || arg_force arg
          then 0 else 2)%Z
  /\ (forall t, In (WriteLine t) (trace (run E projectRoot arg w)) ->
                t <> failureBanner /\ t <> successBanner)
  /\ (forall a, arg_silent a = Undefined -> silent (spreadOptions a) = None)
  /\ (forall a, arg_typeCheck a = Undefined -> typeCheck (spreadOptions a) = None)
  /\ (forall a, arg_format a = Absent -> format (spreadOptions a) = Some "prose").
Proof.
  intros Hundef Hout Hrep.
  assert (Hnone : format (spreadOptions arg) = None).
  { unfold spreadOptions. cbn [format]. now rewrite Hundef. }
  assert (Hidx : indexOf humanReadable (format (spreadOptions arg)) = (-1)%Z).
  { now rewrite Hnone. }
  split; [exact Hnone | split; [exact Hidx | split; [| split; [| split; [| split]]]]].
  - apply machine_format_outcome; [exact Hidx | exact Hout |].
    now rewrite Hnone.
  - intros t Hin.
    destruct (machine_format_no_banner arg Hidx w _ Hin) as [H1 H2].
    split; congruence.
  - intros a Ha. unfold spreadOptions. cbn [silent]. now rewrite Ha.
  - intros a Ha. unfold spreadOptions. cbn [typeCheck]. now rewrite Ha.
  - intros a Ha. unfold spreadOptions. cbn [format]. now rewrite Ha.
Qed.

(** After the linting, [run] can only throw what the lookup of the formatter
    throws, and only with [silent] off: the invalid-format error when
    [findFormatter] gives nothing, the library's error when it throws. *)
Lemma report_exit_throws (o : LintTaskOptions) (res : Result) :
  Throws
    (fun e =>
       truthy (silent o) = false
       /\ ((e = invalidFormat (format o) /\ findFormatter E (format o) = inr None)
           \/ exists message,
                e = LibraryError message
                /\ findFormatter E (format o) = inl message))
    (report E o res ;; exitCode E o res).
Proof.
  apply Throws_bind; [apply report_throws |]. intros _. apply exitCode_throws.
Qed.






(** Whatever [run] throws is thrown by the linting or is the invalid-format
    error; in particular the [configLoad] of the loop is never read before
    it is set. *)
Lemma run_throws (arg : OptionsArg) :
  Throws (fun e => lintingError e \/ e = invalidFormat (format (spreadOptions arg)))
    (run E projectRoot arg).
Proof.
  unfold run.
  destruct (List.length (configsOf (spreadOptions arg)) =? 0)%nat; throws.
  - eapply Throws_weaken; [| apply lintAll_throws]. intros e He. now left.
  - eapply Throws_weaken; [| apply report_throws].
    intros e [_ [[He _] | [m [He _]]]]; [now right |].
    left. right. now exists m.
  - apply exitCode_throws.
Qed.


(** C2, amended. Let two configs give results [r1] and [r2] neither of which
    holds the same failure twice, [equals] being an equivalence. Then the
    merged failures hold exactly one entry for every failure that [r1] or
    [r2] has, also for one they both have, and none for any other failure;
    and the number of entries equal to a given failure is the same when the
    two configs are swapped. (Failures that one config reports twice are
    not filtered against each other.) *)
Theorem merge_pair_deduplicates (r1 r2 : Result) (f : Failure E) :
  EqualsLaws E ->
  dupFree (failures r1) = true ->
  dupFree (failures r2) = true ->
  occurrences (failures (mergeResults [r1; r2])) f =
    (if known (failures r1) f || known (failures r2) f then 1 else 0)
  /\ occurrences (failures (mergeResults [r1; r2])) f =
     occurrences (failures (mergeResults [r2; r1])) f.
Proof.
  intros laws H1 H2.
  assert (H12 : Forall (fun r : Result => dupFree (failures r) = true) [r1; r2])
    by (repeat constructor; assumption).
  assert (H21 : Forall (fun r : Result => dupFree (failures r) = true) [r2; r1])
    by (repeat constructor; assumption).
  rewrite (occurrences_mergeResults E laws [r1; r2] f H12).
  rewrite (occurrences_mergeResults E laws [r2; r1] f H21).
  cbn [flat_map]. rewrite !app_nil_r, !known_app.
  split; [reflexivity |].
  now rewrite orb_comm.
Qed.

(** C4. The fixes of two results are put one after the other, whatever
    they are: when each of two configs gives the one fix [F], the merged
    fixes are [F; F], of length 2. No equality test is applied to fixes. *)
Theorem fixes_never_deduplicated (r1 r2 : Result) (l1 l2 : list (AppliedFix E)) :
  fixes r1 = Some l1 ->
  fixes r2 = Some l2 ->
  fixes (mergeResults [r1; r2]) = Some (l1 ++ l2)%list
  /\ (forall F, l1 = [F] -> l2 = [F] ->
        fixes (mergeResults [r1; r2]) = Some [F; F]
        /\ option_map (@List.length _) (fixes (mergeResults [r1; r2])) = Some 2).
Proof.
  intros H1 H2.
  assert (Hcat : fixes (mergeResults [r1; r2]) = Some (l1 ++ l2)%list).
  { unfold mergeResults. rewrite fixes_fold. simpl. now rewrite H1, H2. }
  split; [exact Hcat |].
  intros F -> ->. rewrite Hcat. now split.
Qed.

(** C5, amended. The entries to expand are the [files] of the config when
    it is an array (even an empty one) or a string that is not empty; the
    file names of the program are used when [files] is missing or is the
    empty string, and a program exists; otherwise there is no entry. Each
    entry is expanded by [glob] and the expansions are put one after the
    other, in the order of the entries, each in the order [glob] gave:
    nothing is removed, so the length is the sum of the lengths. *)
Theorem getFilesToLint_resolution (w : World E) (program : option (Program E))
    (cfg : CliLintConfig) :
  let expand := fun file => glob_sync E w file (globOptionsOf cfg) in
  let programFiles :=
    match program with
    | Some p => Linter_getFileNames E p
    | None => []
    end in
  let entries :=
    match files cfg with
    | Some (Many l) => l
    | Some (One s) => if nonEmpty s then [s] else programFiles
    | None => programFiles
    end in
  getFilesToLint E w program cfg = flat_map expand entries
  /\ List.length (getFilesToLint E w program cfg)
     = list_sum (map (fun file => List.length (expand file)) entries).
Proof.
  intros expand programFiles entries.
  assert (Heq : getFilesToLint E w program cfg = flat_map expand entries).
  { rewrite getFilesToLint_flat. subst entries programFiles expand. cbv beta.
    destruct (files cfg) as [[s | l] |]; simpl; try reflexivity.
    now destruct (nonEmpty s). }
  split; [exact Heq |].
  rewrite Heq. clear Heq.
  induction entries as [| e es IH]; simpl; [reflexivity |].
  now rewrite length_app, IH.
Qed.

End Claims.

(** * The claims on the toy environment *)

(** A run with the defaults on one file that fails: the file is read, its
    configuration is looked up, it is linted, the formatter's text and the
    red banner are written, and the exit code is 2. *)
Example run_failing :
  Toy.exec Toy.failing =
  mkRes
    [RequireProjectModule "/project" "tslint";
     ReadFile "src/a.ts" true;
     FindConfiguration None "src/a.ts";
     Lint "src/a.ts" (Some "bad");
     WriteLine (Plain "src/a.ts");
     WriteLine failureBanner]
    Toy.disk (inr 2%Z).
Proof. reflexivity. Qed.

(** The configuration is looked up again only when the directory changes. *)
Example run_same_directory :
  trace (Toy.exec (Toy.arg (Value "json") Absent false
                     [Toy.config ["src/a.ts"; "src/b.ts"]])) =
  [RequireProjectModule "/project" "tslint";
   ReadFile "src/a.ts" true;
   FindConfiguration None "src/a.ts";
   Lint "src/a.ts" (Some "bad");
   ReadFile "src/b.ts" true;
   Lint "src/b.ts" (Some "fine");
   WriteLine (Plain "src/a.ts")].
Proof. reflexivity. Qed.


(** C2 fails as stated: the first config reports the failure of [src/a.ts]
    twice, the second once, and the merged result holds it twice. *)
Lemma merge_keeps_duplicates_of_one_config :
  let o := spreadOptions Toy.twice in
  let r1 : LintResult (Failure Toy.env) (AppliedFix Toy.env) :=
    mkResult [Toy.failureA; Toy.failureA] (Some []) in
  let r2 : LintResult (Failure Toy.env) (AppliedFix Toy.env) :=
    mkResult [Toy.failureA] (Some []) in
  outcome (lintAll Toy.env o (configsOf o) Toy.disk) = inr [r1; r2]
  /\ known (failures r1) Toy.failureA = true
  /\ known (failures r2) Toy.failureA = true
  /\ failures (mergeResults [r1; r2]) = [Toy.failureA; Toy.failureA]
  /\ occurrences (failures (mergeResults [r1; r2])) Toy.failureA = 2.
Proof. repeat split; reflexivity. Qed.

(** C5 fails as stated: [files] is there, as the empty string, and the
    files linted are those of the program. *)
Lemma empty_string_files_uses_program :
  files Toy.emptyFiles = Some (One EmptyString)
  /\ getFilesToLint Toy.env Toy.disk (Some ["src/b.ts"]) Toy.emptyFiles = ["src/b.ts"]
  /\ flat_map (fun file => glob_sync Toy.env Toy.disk file (globOptionsOf Toy.emptyFiles))
       [EmptyString] = [].
Proof. repeat split; reflexivity. Qed.


(** C9 fails as stated: [format] is present and undefined, which is none of
    the human readable formats; the linter falls back to prose and the
    merged result has no failure; and with [silent] off [run] throws what
    [findFormatter] throws for [undefined], instead of resolving 0. *)
Lemma undefined_format_throws_in_report :
  let o := spreadOptions Toy.undefinedLoud in
  format o = None
  /\ indexOf humanReadable (format o) = (-1)%Z
  /\ outcome (lintAll Toy.env o (configsOf o) Toy.disk) = inr [mkResult [] (Some [])]
  /\ failures (mergeResults (E := Toy.env) [mkResult [] (Some [])]) = []
  /\ outcome (Toy.exec Toy.undefinedLoud)
     = inl (LibraryError "Name of type undefined is not supported.").
Proof. repeat split; reflexivity. Qed.


Lemma merge_pair_deduplicates_witness :
  let r1 : LintResult (Failure Toy.env) (AppliedFix Toy.env) :=
    mkResult [Toy.failureA; Toy.failureB] None in
  let r2 : LintResult (Failure Toy.env) (AppliedFix Toy.env) :=
    mkResult [Toy.failureA] None in
  dupFree (failures r1) = true /\ dupFree (failures r2) = true
  /\ occurrences (failures (mergeResults [r1; r2])) Toy.failureA = 1
  /\ occurrences (failures (mergeResults [r1; r2])) Toy.failureA
     = occurrences (failures (mergeResults [r2; r1])) Toy.failureA.
Proof.
  intros r1 r2.
  split; [reflexivity | split; [reflexivity |]].
  exact (merge_pair_deduplicates Toy.env r1 r2 Toy.failureA
           Toy_equals_laws eq_refl eq_refl).
Defined.

Lemma human_readable_exit_code_witness :
  format (spreadOptions Toy.failing) = Some "prose"
  /\ In "prose" humanReadable
  /\ outcome (Toy.exec Toy.failing) = inr 2%Z.
Proof.
  split; [reflexivity | split; [now left |]].
  apply (human_readable_exit_code Toy.env "/project" Toy.failing Toy.disk
           [mkResult [Toy.failureA] (Some [])] "prose").
  - exact Toy_knowsBuiltinFormatters.
  - reflexivity.
  - now left.
  - reflexivity.
  - discriminate.
Defined.

Lemma fixes_never_deduplicated_witness :
  let r1 : LintResult (Failure Toy.env) (AppliedFix Toy.env) :=
    mkResult [] (Some ["src/a.ts"]) in
  fixes (mergeResults [r1; r1]) = Some ["src/a.ts"; "src/a.ts"].
Proof.
  intros r1.
  exact (proj1 (fixes_never_deduplicated Toy.env r1 r1 ["src/a.ts"] ["src/a.ts"]
                  eq_refl eq_refl)).
Defined.


Lemma empty_configs_exit_zero_witness :
  configsOf (spreadOptions Toy.noConfigs) = []
  /\ Toy.exec Toy.noConfigs = mkRes [WriteLine noConfigWarning] Toy.disk (inr 0%Z).
Proof.
  split; [reflexivity |].
  exact (proj1 (empty_configs_exit_zero Toy.env "/project" Toy.noConfigs Toy.disk
                  eq_refl)).
Defined.


Lemma machine_format_clean_exit_witness :
  (forall y, In y humanReadable -> format (spreadOptions Toy.jsonClean) <> Some y)
  /\ outcome (Toy.exec Toy.jsonClean) = inr 0%Z.
Proof.
  assert (H : forall y, In y humanReadable ->
                        format (spreadOptions Toy.jsonClean) <> Some y).
  { intros y [<- | [<- | [<- | []]]]; discriminate. }
  split; [exact H |].
  apply (proj2 (machine_format_clean_exit Toy.env "/project" Toy.jsonClean Toy.disk H)
           [mkResult [] (Some [])]).
  - reflexivity.
  - reflexivity.
  - right. now exists Toy.formatter.
Defined.

Lemma explicit_undefined_overrides_default_witness :
  arg_format Toy.undefinedFormat = Undefined
  /\ format (spreadOptions Toy.undefinedFormat) = None
  /\ outcome (Toy.exec Toy.undefinedFormat) = inr 2%Z.
Proof.
  split; [reflexivity |].
  destruct (explicit_undefined_overrides_default Toy.env "/project"
              Toy.undefinedFormat Toy.disk [mkResult [Toy.failureA] (Some [])]
              eq_refl eq_refl (or_introl eq_refl)) as [Hfmt [_ [Hout _]]].
  split; [exact Hfmt | exact Hout].
Defined.

(** * Further properties of the task *)

(** ** Traces of computations that return *)

Section TraceFacts.

Context {W : Type}.

Lemma bind_returned {A B : Type} (m : M W A) (k : A -> M W B) (w : W) (b : B) :
  outcome (bind m k w) = inr b ->
  exists a,
    outcome (m w) = inr a
    /\ outcome (k a (world (m w))) = inr b
    /\ trace (bind m k w) = (trace (m w) ++ trace (k a (world (m w))))%list
    /\ world (bind m k w) = world (k a (world (m w))).
Proof.
  unfold bind. destruct (outcome (m w)) as [e | a] eqn:Hout; simpl.
  - discriminate.
  - intros Hk. exists a. now repeat split.
Qed.

(** What a reading of the trace finds in a computation none of whose events
    it looks at. *)
Lemma flat_map_Emits {A X : Type} (g : event -> list X) (m : M W A) (w : W) :
  Emits (fun ev => g ev = []) m -> flat_map g (trace (m w)) = [].
Proof.
  intros Hm. specialize (Hm w).
  induction (trace (m w)) as [| ev tr IH]; simpl; [reflexivity |].
  rewrite (Hm ev) by now left. apply IH. intros ev' Hin. apply Hm. now right.
Qed.

End TraceFacts.

(** ** The loop over the files of a config *)

Section LoopFacts.

Variable E : Env.

Lemma lintFiles_emits_any (P : event -> Prop) program config :
  (forall file ok, P (ReadFile file ok)) ->
  (forall c file, P (FindConfiguration c file)) ->
  (forall file contents, P (Lint file contents)) ->
  forall fs linter lastDirectory configLoad,
    Emits P (lintFiles E program config linter lastDirectory configLoad fs).
Proof.
  intros Hread Hfind Hlint.
  induction fs as [| file rest IH]; intros linter ld cl; cbn [lintFiles].
  - apply Emits_ret.
  - apply Emits_bind.
    + destruct program; emits. now apply getFileContents_emits.
    + intros contents. apply Emits_bind.
      * unfold loadConfiguration. emits.
      * intros st. destruct (fst st); [| apply Emits_throw].
        apply Emits_bind; [now apply lint_emits | intro; apply IH].
Qed.

(** One turn of the loop that is followed by a return. *)
Lemma lintFiles_step program config linter ld cl file rest w l' :
  outcome (lintFiles E program config linter ld cl (file :: rest) w) = inr l' ->
  exists contents linter1 cl1 w1,
    let ld1 :=
      if strictNeq (Some (dirname E file)) ld then Some (dirname E file) else ld in
    trace (lintFiles E program config linter ld cl (file :: rest) w) =
      (match program with Some _ => [] | None => [ReadFile file true] end
       ++ (if strictNeq (Some (dirname E file)) ld
           then [FindConfiguration (tslintConfig config) file] else [])
       ++ Lint file contents
          :: trace (lintFiles E program config linter1 ld1 cl1 rest w1))%list
    /\ contents =
       match program with
       | Some _ => None
       | None => option_map (stripBom E) (readFileSync E w file)
       end
    /\ outcome (lintFiles E program config linter1 ld1 cl1 rest w1) = inr l'.
Proof.
  cbn [lintFiles]. intros H.
  apply bind_returned in H. destruct H as [contents [Hc [H [-> _]]]].
  apply bind_returned in H. destruct H as [st [Hst [H [-> _]]]].
  assert (Hcontents :
    trace (match program with
           | Some _ => ret None
           | None => c <- getFileContents E file ;; ret (Some c)
           end w)
    = match program with Some _ => [] | None => [ReadFile file true] end
    /\ world (match program with
              | Some _ => ret None
              | None => c <- getFileContents E file ;; ret (Some c)
              end w) = w
    /\ contents = match program with
                  | Some _ => None
                  | None => option_map (stripBom E) (readFileSync E w file)
                  end).
  { destruct program as [p |].
    - cbn in Hc |- *. inversion Hc. now repeat split.
    - unfold bind, getFileContents, ret in Hc |- *.
      destruct (readFileSync E w file) as [s |]; cbn in Hc |- *.
      + inversion Hc. now repeat split.
      + discriminate. }
  destruct Hcontents as [Htr [Hw Hcon]]. rewrite Htr, Hw in *. clear Htr Hw Hc.
  set (changed := strictNeq (Some (dirname E file)) ld) in *.
  assert (Hload :
    trace ((if changed
            then c <- loadConfiguration E (tslintConfig config) file ;;
                 ret (Some c, Some (dirname E file))
            else ret (cl, ld)) w)
    = (if changed then [FindConfiguration (tslintConfig config) file] else [])
    /\ world ((if changed
               then c <- loadConfiguration E (tslintConfig config) file ;;
                    ret (Some c, Some (dirname E file))
               else ret (cl, ld)) w) = w
    /\ snd st = if changed then Some (dirname E file) else ld).
  { destruct changed; cbn in Hst |- *; inversion Hst; now repeat split. }
  destruct Hload as [Htr [Hw Hsnd]]. rewrite Htr, Hw in *. clear Htr Hw Hst.
  destruct (fst st) as [c |] eqn:Hfst; [| discriminate H].
  apply bind_returned in H. destruct H as [linter1 [Hl [H [-> _]]]].
  unfold lint in Hl, H |- *.
  destruct (Linter_lint E linter file contents (results E c) w) as [w1 l1] eqn:Hlint.
  cbn [outcome world trace] in Hl, H |- *. inversion Hl; subst l1.
  exists contents, linter1, (Some c), w1. cbv zeta.
  rewrite Hsnd in H |- *. subst changed.
  split; [reflexivity | split; [exact Hcon | exact H]].
Qed.

(** Every file of the list is handed to the linter once, in the order of
    the list. *)
Lemma lintFiles_lintedFiles program config :
  forall fs linter ld cl w l',
    outcome (lintFiles E program config linter ld cl fs w) = inr l' ->
    lintedFiles (trace (lintFiles E program config linter ld cl fs w)) = fs.
Proof.
  induction fs as [| file rest IH]; intros linter ld cl w l' H; [reflexivity |].
  destruct (lintFiles_step _ _ _ _ _ _ _ _ _ H)
    as [contents [linter1 [cl1 [w1 [Htr [_ Hrest]]]]]].
  rewrite Htr. unfold lintedFiles. rewrite !flat_map_app. cbn [flat_map].
  fold (lintedFiles (trace (lintFiles E program config linter1
    (if strictNeq (Some (dirname E file)) ld then Some (dirname E file) else ld)
    cl1 rest w1))).
  rewrite (IH _ _ _ _ _ Hrest).
  now destruct program, (strictNeq (Some (dirname E file)) ld).
Qed.


(** The configuration is looked up for the files at which the directory
    changes, and for no other. *)
Lemma lintFiles_lookups program config :
  forall fs linter ld cl w l',
    outcome (lintFiles E program config linter ld cl fs w) = inr l' ->
    lookups (trace (lintFiles E program config linter ld cl fs w))
    = map (fun file => (tslintConfig config, file))
        (directoryChanges (dirname E) ld fs).
Proof.
  induction fs as [| file rest IH]; intros linter ld cl w l' H; [reflexivity |].
  destruct (lintFiles_step _ _ _ _ _ _ _ _ _ H)
    as [contents [linter1 [cl1 [w1 [Htr [_ Hrest]]]]]].
  rewrite Htr. unfold lookups. rewrite !flat_map_app. cbn [flat_map directoryChanges].
  fold (lookups (trace (lintFiles E program config linter1
    (if strictNeq (Some (dirname E file)) ld then Some (dirname E file) else ld)
    cl1 rest w1))).
  rewrite (IH _ _ _ _ _ Hrest).
  now destruct program, (strictNeq (Some (dirname E file)) ld).
Qed.

(** With a program no file is read, so the loop runs to its end. *)
Lemma lintFiles_program_returns (p : Program E) config :
  forall fs linter ld cl w,
    ld = None \/ cl <> None ->
    exists l', outcome (lintFiles E (Some p) config linter ld cl fs w) = inr l'.
Proof.
  induction fs as [| file rest IH]; intros linter ld cl w Hinv; cbn [lintFiles].
  - now exists linter.
  - rewrite (bind_returns _ _ w None) by reflexivity. cbn [outcome ret world].
    set (load := if strictNeq (Some (dirname E file)) ld
                 then c <- loadConfiguration E (tslintConfig config) file ;;
                      ret (Some c, Some (dirname E file))
                 else ret (cl, ld)).
    assert (Hload : exists c ld1, outcome (load w) = inr (Some c, ld1)
                                  /\ world (load w) = w).
    { subst load. destruct (strictNeq (Some (dirname E file)) ld) eqn:Hdir.
      - eexists. eexists. cbn. split; reflexivity.
      - destruct Hinv as [-> | Hcl]; [discriminate Hdir |].
        destruct cl as [c |]; [| contradiction].
        exists c, ld. cbn. split; reflexivity. }
    destruct Hload as [c [ld1 [Hout Hw]]].
    rewrite (bind_returns _ _ w _ Hout). cbn [outcome fst snd]. rewrite Hw.
    unfold bind at 1. unfold lint at 1 2 3.
    destruct (Linter_lint E linter file None (results E c) w) as [w1 l1].
    cbn [outcome world].
    apply IH. right. discriminate.
Qed.

End LoopFacts.

(** ** Linting one config *)

Section ConfigFacts.

Variable E : Env.

Local Abbreviation Result := (LintResult (Failure E) (AppliedFix E)).

(** The files of a config and the loop that lints them, in the world the
    config is linted in. *)
Lemma lintConfig_unfold (o : LintTaskOptions) (c : CliLintConfig) (w : World E) :
  let prog := createdProgram E w c in
  let prog' := if lintsWithoutProgram E o c then None else prog in
  let loop :=
    lintFiles E prog' c
      (Linter_new E {| lo_fix := fix_ o; lo_formatter := format o |} prog')
      None None (getFilesToLint E w prog c) w in
  lintConfig E o c w =
  mkRes
    (match truthyString (project c) with
     | Some p => [CreateProgram p]
     | None => if warnsAboutProject o c then [WriteLine typeCheckWarning] else []
     end ++ trace loop)%list
    (world loop)
    (match outcome loop with
     | inl e => inl e
     | inr l =>
         match Linter_getResult E l with
         | inl message => inl (LibraryError message)
         | inr r => inr r
         end
     end).
Proof.
  intros prog prog' loop. unfold lintConfig.
  set (create :=
    match truthyString (project c) with
    | Some p => pr <- createProgram E p ;; ret (Some pr)
    | None =>
        (if truthy (typeCheck o)
         then if negb (truthy (silent o)) then writeLine typeCheckWarning else ret tt
         else ret tt) ;;
        ret None
    end).
  assert (Hcreate :
    outcome (create w) = inr prog
    /\ world (create w) = w
    /\ trace (create w) =
       match truthyString (project c) with
       | Some p => [CreateProgram p]
       | None => if warnsAboutProject o c then [WriteLine typeCheckWarning] else []
       end).
  { subst create prog. unfold createdProgram, warnsAboutProject.
    destruct (truthyString (project c)) as [p |].
    - cbn. now repeat split.
    - destruct (truthy (typeCheck o)), (truthy (silent o)); cbn; now repeat split. }
  destruct Hcreate as [Hout [Hw Htr]].
  rewrite (bind_returns _ _ w _ Hout). rewrite Hw, Htr.
  rewrite (bind_returns (reads _) _ w _ eq_refl). cbn [reads trace world outcome app].
  assert (Hprog' :
    (if satisfies E (Linter_VERSION E) "< 5.5" && negb (truthy (typeCheck o))
     then None else prog) = prog').
  { subst prog' prog. unfold lintsWithoutProgram, createdProgram.
    destruct (truthyString (project c)); [reflexivity |].
    now destruct (satisfies E (Linter_VERSION E) "< 5.5" && negb (truthy (typeCheck o))). }
  rewrite Hprog'. subst loop.
  set (lf := lintFiles E prog' c _ None None _).
  destruct (outcome (lf w)) as [e | l] eqn:Hloop.
  - now rewrite (bind_throws lf _ w e Hloop).
  - rewrite (bind_returns lf _ w l Hloop). unfold getResult.
    destruct (Linter_getResult E l); cbn [ret throw trace world outcome];
      now rewrite app_nil_r.
Qed.

Lemma directoryChanges_within (dir : string -> string) (d : string) :
  forall fs, (forall f, In f fs -> dir f = d) ->
             directoryChanges dir (Some d) fs = [].
Proof.
  induction fs as [| file rest IH]; intros Hd; cbn [directoryChanges]; [reflexivity |].
  rewrite (Hd file) by now left. cbn [strictNeq]. rewrite String.eqb_refl.
  cbn [negb]. apply IH. intros f Hf. apply Hd. now right.
Qed.

Lemma directoryChanges_first (dir : string -> string) (file : string)
    (rest : list string) :
  (forall f, In f rest -> dir f = dir file) ->
  directoryChanges dir None (file :: rest) = [file].
Proof.
  intros Hd. cbn [directoryChanges strictNeq]. f_equal.
  now apply directoryChanges_within.
Qed.

(** What the events before the loop contribute to a reading of the trace
    that looks at the events of the loop only. *)
Lemma lintConfig_reading {X : Type} (g : event -> list X)
    (o : LintTaskOptions) (c : CliLintConfig) (w : World E) :
  (forall p, g (CreateProgram p) = []) ->
  (forall t, g (WriteLine t) = []) ->
  let prog := createdProgram E w c in
  let prog' := if lintsWithoutProgram E o c then None else prog in
  flat_map g (trace (lintConfig E o c w)) =
  flat_map g
    (trace
       (lintFiles E prog' c
          (Linter_new E {| lo_fix := fix_ o; lo_formatter := format o |} prog')
          None None (getFilesToLint E w prog c) w)).
Proof.
  intros Hcreate Hwrite prog prog'.
  rewrite lintConfig_unfold. cbn [trace]. rewrite flat_map_app.
  destruct (truthyString (project c)) as [p |]; cbn [flat_map].
  - now rewrite Hcreate.
  - destruct (warnsAboutProject o c); cbn [flat_map]; [now rewrite Hwrite | reflexivity].
Qed.

Lemma lintConfig_returned (o : LintTaskOptions) (c : CliLintConfig) (w : World E)
    (r : Result) :
  outcome (lintConfig E o c w) = inr r ->
  let prog := createdProgram E w c in
  let prog' := if lintsWithoutProgram E o c then None else prog in
  exists l,
    outcome
      (lintFiles E prog' c
         (Linter_new E {| lo_fix := fix_ o; lo_formatter := format o |} prog')
         None None (getFilesToLint E w prog c) w) = inr l
    /\ Linter_getResult E l = inr r.
Proof.
  intros H prog prog'. rewrite lintConfig_unfold in H. cbn [outcome] in H.
  subst prog prog'.
  destruct (outcome (lintFiles E _ c _ None None _ w)) as [e | l];
    [discriminate |].
  exists l. split; [reflexivity |].
  destruct (Linter_getResult E l); [discriminate | now inversion H].
Qed.

(** X1. When a config is linted to the end, the files handed to the linter
    are exactly the files resolved for the config, each once and in the
    resolved order: a file that two patterns expand to is linted twice, and
    none is skipped. The result of the config is what the linter reports
    after the last of them. *)
Theorem config_lints_each_file_once (o : LintTaskOptions) (c : CliLintConfig)
    (w : World E) (r : Result) :
  outcome (lintConfig E o c w) = inr r ->
  lintedFiles (trace (lintConfig E o c w))
  = getFilesToLint E w (createdProgram E w c) c.
Proof.
  intros H. destruct (lintConfig_returned o c w r H) as [l [Hl _]].
  unfold lintedFiles. rewrite lintConfig_reading by reflexivity.
  exact (lintFiles_lintedFiles E _ _ _ _ _ _ _ _ Hl).
Qed.

(** X2. When a config is linted to the end, the rule configuration is
    looked up for the first file and then again only for a file whose
    directory differs from that of the file before it, always with the
    [tslintConfig] of the config as the override. In particular, files that
    are all in one directory cost a single lookup, made for the first. *)
Theorem config_lookups_follow_directories (o : LintTaskOptions) (c : CliLintConfig)
    (w : World E) (r : Result) :
  outcome (lintConfig E o c w) = inr r ->
  let resolved := getFilesToLint E w (createdProgram E w c) c in
  lookups (trace (lintConfig E o c w))
  = map (fun file => (tslintConfig c, file))
      (directoryChanges (dirname E) None resolved)
  /\ (forall d, (forall f, In f resolved -> dirname E f = d) ->
                lookups (trace (lintConfig E o c w))
                = match resolved with
                  | [] => []
                  | file :: _ => [(tslintConfig c, file)]
                  end).
Proof.
  intros H resolved. destruct (lintConfig_returned o c w r H) as [l [Hl _]].
  assert (Hlook :
    lookups (trace (lintConfig E o c w))
    = map (fun file => (tslintConfig c, file))
        (directoryChanges (dirname E) None resolved)).
  { unfold lookups. rewrite lintConfig_reading by reflexivity.
    exact (lintFiles_lookups E _ _ _ _ _ _ _ _ Hl). }
  split; [exact Hlook |].
  intros d Hd. rewrite Hlook.
  destruct resolved as [| file rest]; [reflexivity |].
  rewrite directoryChanges_first; [reflexivity |].
  intros f Hf. rewrite (Hd file) by now left. apply Hd. now right.
Qed.

(** With a program the loop asks for no file. *)
Lemma lintFiles_program_no_reads (p : Program E) config :
  forall fs linter ld cl,
    Emits (fun ev => match ev with ReadFile file _ => [file] | _ => [] end = [])
      (lintFiles E (Some p) config linter ld cl fs).
Proof.
  induction fs as [| file rest IH]; intros linter ld cl; cbn [lintFiles].
  - apply Emits_ret.
  - apply Emits_bind; [apply Emits_ret |].
    intros contents. apply Emits_bind.
    + unfold loadConfiguration. emits.
    + intros st. destruct (fst st); [| apply Emits_throw].
      apply Emits_bind; [now apply lint_emits | intro; apply IH].
Qed.

(** X3. For a config whose linter is built with a program (it has a
    project, and the library is 5.5 or later or a type check is asked for),
    the task reads no file, however the linting of the config ends, and the
    unreadable-file error is never raised. *)
Theorem program_config_reads_nothing (o : LintTaskOptions) (c : CliLintConfig)
    (w : World E) :
  lintsWithoutProgram E o c = false ->
  filesRead (trace (lintConfig E o c w)) = []
  /\ (forall f, outcome (lintConfig E o c w) <> inl (couldNotRead f)).
Proof.
  intros Hprog.
  assert (Hcreated : exists p, createdProgram E w c = Some p).
  { unfold lintsWithoutProgram in Hprog. unfold createdProgram.
    destruct (truthyString (project c)); [now eexists | discriminate]. }
  destruct Hcreated as [p Hp]. split.
  - unfold filesRead. rewrite lintConfig_reading by reflexivity.
    rewrite Hprog, Hp. apply flat_map_Emits, lintFiles_program_no_reads.
  - intros f. rewrite lintConfig_unfold. cbn [outcome]. rewrite Hprog, Hp.
    destruct (lintFiles_program_returns E p c
                (getFilesToLint E w (Some p) c)
                (Linter_new E {| lo_fix := fix_ o; lo_formatter := format o |} (Some p))
                None None w (or_introl eq_refl)) as [l Hl].
    rewrite Hl. now destruct (Linter_getResult E l).
Qed.


(** X16. For a config with neither [files] nor a project (a missing key or
    an empty string, for either) nothing is resolved, read, looked up or
    linted: the only event is the warning about type checking, if it is
    due, the world is untouched, and the config ends as [getResult] does on
    a linter that was built without a program and has linted nothing: with
    its result, or with the error it throws. *)
Theorem config_without_files_lints_nothing (o : LintTaskOptions) (c : CliLintConfig)
    (w : World E) :
  truthyPatterns (files c) = None ->
  truthyString (project c) = None ->
  lintConfig E o c w =
  mkRes
    (if truthy (typeCheck o) && negb (truthy (silent o))
     then [WriteLine typeCheckWarning] else [])
    w
    (match
       Linter_getResult E
         (Linter_new E {| lo_fix := fix_ o; lo_formatter := format o |} None)
     with
     | inl message => inl (LibraryError message)
     | inr r => inr r
     end).
Proof.
  intros Hfiles Hproject.
  assert (Hcreated : createdProgram E w c = None)
    by (unfold createdProgram; now rewrite Hproject).
  assert (Hwithout : lintsWithoutProgram E o c = true)
    by (unfold lintsWithoutProgram; now rewrite Hproject).
  assert (Hnone : getFilesToLint E w None c = []).
  { rewrite getFilesToLint_flat, Hfiles. reflexivity. }
  rewrite lintConfig_unfold, Hcreated, Hwithout, Hnone, Hproject.
  unfold warnsAboutProject. rewrite Hproject.
  cbn [lintFiles ret trace world outcome]. now rewrite app_nil_r.
Qed.

End ConfigFacts.

(** ** The console and the exit code of a run *)

Section RunFacts.

Variable E : Env.
Variable projectRoot : string.

Local Abbreviation Result := (LintResult (Failure E) (AppliedFix E)).

Lemma Emits_of_flat_map {A X : Type} (g : event -> list X) (m : M (World E) A) :
  (forall w, flat_map g (trace (m w)) = []) -> Emits (fun ev => g ev = []) m.
Proof.
  intros H w ev Hin. specialize (H w).
  induction (trace (m w)) as [| ev' tr IH]; [destruct Hin |].
  cbn [flat_map] in H. apply app_eq_nil in H. destruct H as [Hev Htr].
  destruct Hin as [<- | Hin]; [exact Hev | now apply IH].
Qed.

(** The one line linting a config can write is the warning about type
    checking, before anything else, whether the config is linted to the end
    or not. *)
Lemma lintConfig_console (o : LintTaskOptions) (c : CliLintConfig) (w : World E) :
  consoleLines (trace (lintConfig E o c w))
  = if warnsAboutProject o c then [typeCheckWarning] else [].
Proof.
  rewrite lintConfig_unfold. cbn [trace]. unfold consoleLines.
  rewrite flat_map_app, flat_map_Emits.
  - rewrite app_nil_r. unfold warnsAboutProject.
    destruct (truthyString (project c)); [reflexivity |].
    now destruct (truthy (typeCheck o) && negb (truthy (silent o))).
  - now apply lintFiles_emits_any.
Qed.

(** When every config is linted to the end, the console lines of the
    linting are the warnings about type checking, one for each config that
    asks for one, and there is one result for each config. *)
Lemma lintAll_console (o : LintTaskOptions) :
  forall (cs : list CliLintConfig) (w : World E) (rs : list Result),
    outcome (lintAll E o cs w) = inr rs ->
    consoleLines (trace (lintAll E o cs w))
    = flat_map (fun c => if warnsAboutProject o c then [typeCheckWarning] else []) cs
    /\ List.length rs = List.length cs.
Proof.
  induction cs as [| c cs IH]; intros w rs H.
  - cbn in H. inversion H. now split.
  - cbn [lintAll] in H |- *.
    apply bind_returned in H. destruct H as [r [Hr [H [-> _]]]].
    apply bind_returned in H. destruct H as [rs' [Hrs [H [-> _]]]].
    cbn in H. inversion H; subst rs.
    destruct (IH _ _ Hrs) as [Hlines Hlen].
    unfold consoleLines in *. rewrite !flat_map_app. cbn [flat_map ret trace].
    fold (consoleLines (trace (lintConfig E o c w))).
    rewrite lintConfig_console, Hlines, !app_nil_r.
    split; [reflexivity |]. cbn [List.length]. now rewrite Hlen.
Qed.

Lemma report_known (o : LintTaskOptions) (res : Result) (w : World E)
    (formatter : list (Failure E) -> option (list (AppliedFix E)) -> string) :
  truthy (silent o) = false ->
  findFormatter E (format o) = inr (Some formatter) ->
  report E o res w =
  mkRes
    (if nonEmpty (formatter (failures res) (fixes res))
     then [WriteLine (Plain (formatter (failures res) (fixes res)))] else [])
    w (inr tt).
Proof.
  intros Hs Hf. unfold report. rewrite Hs, Hf. cbn [negb].
  now destruct (nonEmpty (formatter (failures res) (fixes res))).
Qed.

Lemma exitCode_human_clean (o : LintTaskOptions) (res : Result) (w : World E) :
  indexOf humanReadable (format o) <> (-1)%Z -> failures res = [] ->
  exitCode E o res w =
  mkRes (if truthy (silent o) then [] else [WriteLine successBanner]) w (inr 0%Z).
Proof.
  intros H Hf. unfold exitCode.
  destruct (Z.eqb_spec (indexOf humanReadable (format o)) (-1)) as [Heq | _];
    [contradiction |].
  rewrite Hf. cbn [List.length Nat.ltb Nat.leb].
  unfold bind, writeLine, emit, ret.
  now destruct (truthy (silent o)).
Qed.

(** The exit code does not depend on the format. *)
Lemma exitCode_outcome (o : LintTaskOptions) (res : Result) (w : World E) :
  outcome (exitCode E o res w) =
  inr (if (List.length (failures res) =? 0)%nat || force o then 0 else 2)%Z
  /\ world (exitCode E o res w) = w.
Proof.
  destruct (Z.eq_dec (indexOf humanReadable (format o)) (-1)) as [Hidx | Hidx].
  - now rewrite exitCode_machine.
  - destruct (failures res) as [| f l] eqn:Hf.
    + rewrite exitCode_human_clean by assumption. now split.
    + rewrite exitCode_human_failures; [| assumption | rewrite Hf; discriminate].
      now split.
Qed.

(** X5. The console of a run that is not silent, lints its configs to the
    end and finds its formatter: first the warnings about type checking,
    then the text of the formatter if it is not empty, then, for a human
    readable format only, one banner: the green one when there is no
    failure, the red one otherwise. *)
Theorem console_of_loud_run (arg : OptionsArg) (w : World E) (rs : list Result)
    (formatter : list (Failure E) -> option (list (AppliedFix E)) -> string) :
  let o := spreadOptions arg in
  let res := mergeResults rs in
  let text := formatter (failures res) (fixes res) in
  truthy (silent o) = false ->
  outcome (lintAll E o (configsOf o) w) = inr rs ->
  configsOf o <> [] ->
  findFormatter E (format o) = inr (Some formatter) ->
  consoleLines (trace (run E projectRoot arg w)) =
  (flat_map (fun c => if warnsAboutProject o c then [typeCheckWarning] else [])
     (configsOf o)
   ++ (if nonEmpty text then [Plain text] else [])
   ++ (if (indexOf humanReadable (format o) =? -1)%Z then []
       else if (List.length (failures res) =? 0)%nat
            then [successBanner] else [failureBanner]))%list.
Proof.
  intros o res text Hs Hout Hne Hf.
  rewrite (run_linted E projectRoot arg w rs Hne Hout). cbn [trace]. fold o res.
  set (w' := world (lintAll E o (configsOf o) w)).
  rewrite (bind_returns (report E o res) _ w' tt)
    by now rewrite (report_known o res w' formatter Hs Hf).
  rewrite (report_known o res w' formatter Hs Hf). cbn [trace world]. fold text.
  unfold consoleLines. cbn [flat_map app]. rewrite !flat_map_app.
  fold (consoleLines (trace (lintAll E o (configsOf o) w))).
  rewrite (proj1 (lintAll_console o (configsOf o) w rs Hout)).
  f_equal. f_equal.
  - now destruct (nonEmpty text).
  - destruct (Z.eqb_spec (indexOf humanReadable (format o)) (-1)) as [Hidx | Hidx].
    + now rewrite exitCode_machine.
    + destruct (failures res) as [| f l] eqn:Hfail.
      * rewrite exitCode_human_clean by assumption. now rewrite Hs.
      * rewrite exitCode_human_failures; [| assumption | rewrite Hfail; discriminate].
        now rewrite Hs.
Qed.

Lemma Blames_never {A : Type} (m : M (World E) A) :
  Throws (fun _ => False) m -> BlamesFailedRead m.
Proof. intros Hm w e Hout. destruct (Hm w e Hout). Qed.

Lemma Blames_bind_post {A B : Type} (Q : A -> Prop)
    (m : M (World E) A) (k : A -> M (World E) B) :
  BlamesFailedRead m -> Returns Q m -> (forall a, Q a -> BlamesFailedRead (k a)) ->
  BlamesFailedRead (bind m k).
Proof.
  intros Hm Hq Hk w e. unfold bind.
  destruct (outcome (m w)) as [e' | a] eqn:Hout; cbn [outcome trace].
  - intros Heq. inversion Heq; subst e'. now apply Hm.
  - intros Hout'.
    destruct (Hk a (Hq w a Hout) _ _ Hout') as [Hlib | [f [-> Hin]]]; [now left |].
    right. exists f. split; [reflexivity |]. apply in_or_app. now right.
Qed.

Lemma Blames_bind {A B : Type} (m : M (World E) A) (k : A -> M (World E) B) :
  BlamesFailedRead m -> (forall a, BlamesFailedRead (k a)) ->
  BlamesFailedRead (bind m k).
Proof.
  intros Hm Hk. apply Blames_bind_post with (Q := fun _ => True); auto.
  now intros w a _.
Qed.

Lemma getFileContents_blames (file : string) :
  BlamesFailedRead (getFileContents E file).
Proof.
  intros w e. unfold getFileContents.
  destruct (readFileSync E w file); cbn [outcome trace]; intros Heq;
    inversion Heq; subst.
  right. exists file. split; [reflexivity | now left].
Qed.

Lemma lintFiles_blames program config :
  forall fs linter lastDirectory configLoad,
    lastDirectory = None \/ configLoad <> None ->
    BlamesFailedRead (lintFiles E program config linter lastDirectory configLoad fs).
Proof.
  induction fs as [| file rest IH]; intros linter ld cl Hinv; cbn [lintFiles].
  - apply Blames_never, Throws_ret.
  - apply Blames_bind.
    + destruct program; [apply Blames_never, Throws_ret |].
      apply Blames_bind; [apply getFileContents_blames |].
      intro. apply Blames_never, Throws_ret.
    + intros contents.
      apply Blames_bind_post with (Q := fun st => fst st <> None).
      * apply Blames_never. unfold loadConfiguration. throws.
      * destruct (strictNeq (Some (dirname E file)) ld) eqn:Hdir.
        -- apply Returns_bind. intros c. now apply Returns_ret.
        -- apply Returns_ret. cbn [fst].
           destruct Hinv as [-> | Hcl]; [discriminate | exact Hcl].
      * intros st Hst. destruct (fst st) eqn:Hfst; [| contradiction].
        apply Blames_bind; [apply Blames_never, lint_throws |].
        intros linter'. apply IH. right. discriminate.
Qed.

Lemma lintAll_blames (o : LintTaskOptions) :
  forall cs, BlamesFailedRead (lintAll E o cs).
Proof.
  induction cs as [| c cs IH]; cbn [lintAll].
  - apply Blames_never, Throws_ret.
  - apply Blames_bind.
    + unfold lintConfig. apply Blames_bind.
      * apply Blames_never. unfold createProgram. throws.
      * intros program. apply Blames_bind; [apply Blames_never, Throws_reads |].
        intros fs. apply Blames_bind; [apply lintFiles_blames; now left |].
        intros l w' e He. left. exact (getResult_throws E l w' e He).
    + intros r. apply Blames_bind; [apply IH |].
      intro. apply Blames_never, Throws_ret.
Qed.

Lemma exitCode_values (o : LintTaskOptions) (res : Result) (w : World E) :
  outcome (exitCode E o res w) = inr 0%Z \/ outcome (exitCode E o res w) = inr 2%Z.
Proof.
  rewrite (proj1 (exitCode_outcome o res w)).
  destruct ((List.length (failures res) =? 0)%nat || force o); [now left | now right].
Qed.

(** X6. What the task itself can do at the end of a run. It resolves no
    code but 0 and 2. It never throws the [TypeError] of reading
    [configLoad.results] of an undefined [configLoad]: the configuration is
    always loaded before the first file is linted. And it raises no error
    of its own but two: the one naming a file, after a read of that file
    has failed, and the invalid-format error for the requested format, with
    [silent] off and after [findFormatter] gave nothing. Any other
    exception is one a collaborator threw. *)
Theorem run_outcomes (arg : OptionsArg) (w : World E) :
  let o := spreadOptions arg in
  let r := run E projectRoot arg w in
  (forall z, outcome r = inr z -> z = 0%Z \/ z = 2%Z)
  /\ outcome r <> inl TypeError
  /\ (forall t,
        outcome r = inl (SilentError t) ->
        (exists f, SilentError t = couldNotRead f /\ In (ReadFile f false) (trace r))
        \/ (SilentError t = invalidFormat (format o)
            /\ truthy (silent o) = false
            /\ findFormatter E (format o) = inr None)).
Proof.
  intros o r.
  assert (Hthrown :
    forall e, outcome r = inl e ->
      (exists message, e = LibraryError message)
      \/ (exists f, e = couldNotRead f /\ In (ReadFile f false) (trace r))
      \/ (e = invalidFormat (format o) /\ truthy (silent o) = false
          /\ findFormatter E (format o) = inr None)).
  { subst r. intros e Hrun.
    assert (Hne : configsOf o <> []).
    { intros Hnil. rewrite (run_empty E projectRoot arg w Hnil) in Hrun.
      discriminate. }
    destruct (outcome (lintAll E o (configsOf o) w)) as [e' | rs] eqn:Hlint.
    - rewrite (run_aborted E projectRoot arg w e' Hne Hlint) in Hrun |- *.
      cbn [outcome trace] in Hrun |- *. inversion Hrun; subst e'.
      destruct (lintAll_blames o _ w e Hlint) as [Hlib | [f [-> Hin]]];
        [now left |].
      right. left. exists f. split; [reflexivity | now right].
    - rewrite (run_linted E projectRoot arg w rs Hne Hlint) in Hrun.
      cbn [outcome] in Hrun.
      destruct (report_exit_throws E o (mergeResults rs) _ _ Hrun)
        as [Hs [[-> Hf] | [m [-> _]]]].
      + right. right. now repeat split.
      + left. now exists m. }
  split; [| split].
  - subst r. intros z Hrun.
    destruct (configsOf o) as [| c cs] eqn:Hcs.
    { rewrite (run_empty E projectRoot arg w Hcs) in Hrun.
      inversion Hrun. now left. }
    assert (Hne : configsOf o <> []) by (rewrite Hcs; discriminate).
    clear Hcs.
    destruct (outcome (lintAll E o (configsOf o) w)) as [e | rs] eqn:Hlint.
    + rewrite (run_aborted E projectRoot arg w e Hne Hlint) in Hrun. discriminate.
    + rewrite (run_linted E projectRoot arg w rs Hne Hlint) in Hrun.
      cbn [outcome] in Hrun. fold o in Hrun.
      apply bind_returned in Hrun. destruct Hrun as [[] [_ [Hexit _]]].
      destruct (exitCode_values o (mergeResults rs)
                  (world (report E o (mergeResults rs)
                            (world (lintAll E o (configsOf o) w)))))
        as [H | H]; rewrite H in Hexit; inversion Hexit; [now left | now right].
  - intros Htype.
    destruct (Hthrown _ Htype) as [[m Hm] | [[f [Hf _]] | [Hf _]]]; discriminate.
  - intros t Ht.
    destruct (Hthrown _ Ht) as [[m Hm] | [H | H]];
      [discriminate | now left | now right].
Qed.

(** X7. The exit code does not depend on the format: once the configs are
    linted, and [silent] is set or the library knows the format, [run]
    resolves 0 when the merged result has no failure or [force] is set, and
    2 otherwise, for a human readable format as for any other. The format
    only decides whether a banner is written. *)
Theorem exit_code_ignores_format (arg : OptionsArg) (w : World E) (rs : list Result) :
  let o := spreadOptions arg in
  outcome (lintAll E o (configsOf o) w) = inr rs ->
  truthy (silent o) = true \/ knowsFormat E (format o) ->
  outcome (run E projectRoot arg w) =
  inr (if (List.length (failures (mergeResults rs)) =? 0)%nat || arg_force arg
       then 0 else 2)%Z.
Proof.
  intros o Hout Hrep.
  destruct (configsOf o) as [| c cs] eqn:Hcs.
  - rewrite (run_empty E projectRoot arg w Hcs).
    cbn in Hout. inversion Hout; subst rs. reflexivity.
  - assert (Hne : configsOf o <> []) by (rewrite Hcs; discriminate).
    rewrite <- Hcs in Hout.
    rewrite (run_linted E projectRoot arg w rs Hne Hout). cbn [outcome]. fold o.
    set (w' := world (lintAll E o (configsOf o) w)).
    destruct (report_returns E o (mergeResults rs) w' Hrep) as [Hret Hw].
    rewrite (bind_returns _ _ w' tt Hret). cbn [outcome]. rewrite Hw.
    exact (proj1 (exitCode_outcome o (mergeResults rs) w')).
Qed.

Lemma lintAll_silent (o : LintTaskOptions) :
  truthy (silent o) = true ->
  forall cs,
    Emits (fun ev => match ev with WriteLine t => [t] | _ => [] end = [])
      (lintAll E o cs).
Proof.
  intros Hs. induction cs as [| c cs IH]; cbn [lintAll]; emits; [| apply IH].
  apply Emits_of_flat_map. intros w.
  fold (consoleLines (trace (lintConfig E o c w))).
  rewrite lintConfig_console. unfold warnsAboutProject. rewrite Hs.
  destruct (truthyString (project c)); [reflexivity |].
  now rewrite andb_false_r.
Qed.

(** X8. With [silent] set a run writes no line at all, however it ends: no
    warning about missing configs or about type checking, no text of the
    formatter, no banner. *)
Theorem silent_run_writes_nothing (arg : OptionsArg) (w : World E) :
  truthy (silent (spreadOptions arg)) = true ->
  consoleLines (trace (run E projectRoot arg w)) = [].
Proof.
  intros Hs. unfold consoleLines. apply flat_map_Emits.
  unfold run, report, exitCode. rewrite Hs. cbn [negb].
  destruct (List.length (configsOf (spreadOptions arg)) =? 0)%nat; emits.
  now apply lintAll_silent.
Qed.

(** X9. When there is a config, the first thing a run does is to load
    [tslint] from the root of the project, and it loads it once: every
    config is linted with that one module. *)
Theorem module_loaded_once_first (arg : OptionsArg) (w : World E) :
  configsOf (spreadOptions arg) <> [] ->
  exists rest,
    trace (run E projectRoot arg w) = RequireProjectModule projectRoot "tslint" :: rest
    /\ moduleLoads rest = [].
Proof.
  intros Hne. set (o := spreadOptions arg) in *.
  assert (Hlint : moduleLoads (trace (lintAll E o (configsOf o) w)) = []).
  { unfold moduleLoads. apply flat_map_Emits.
    eapply Emits_weaken; [| apply lintAll_emits].
    intros [] Hev; (reflexivity || destruct Hev). }
  destruct (outcome (lintAll E o (configsOf o) w)) as [e | rs] eqn:Hout.
  - rewrite (run_aborted E projectRoot arg w e Hne Hout). now eexists.
  - rewrite (run_linted E projectRoot arg w rs Hne Hout). fold o.
    eexists. split; [reflexivity |].
    unfold moduleLoads in *. rewrite flat_map_app, Hlint. cbn [app].
    apply flat_map_Emits. apply Emits_bind.
    + eapply Emits_weaken; [| apply report_emits].
      intros [] Hev; (reflexivity || destruct Hev).
    + intros _. eapply Emits_weaken; [| apply exitCode_emits].
      intros [] Hev; (reflexivity || destruct Hev).
Qed.

Lemma lintConfig_keeps (o : LintTaskOptions) (c : CliLintConfig) :
  linterReadsOnly E -> KeepsWorld (lintConfig E o c).
Proof.
  intros Hlinter. unfold lintConfig, createProgram, getResult. keeps.
  now apply lintFiles_keeps.
Qed.

Lemma lintAll_lintedFiles (o : LintTaskOptions) :
  linterReadsOnly E ->
  forall (cs : list CliLintConfig) (w : World E) (rs : list Result),
    outcome (lintAll E o cs w) = inr rs ->
    lintedFiles (trace (lintAll E o cs w))
    = flat_map (fun c => getFilesToLint E w (createdProgram E w c) c) cs.
Proof.
  intros Hlinter. induction cs as [| c cs IH]; intros w rs H; [reflexivity |].
  cbn [lintAll] in H |- *.
  apply bind_returned in H. destruct H as [r [Hr [H [-> _]]]].
  apply bind_returned in H. destruct H as [rs' [Hrs [_ [-> _]]]].
  rewrite (lintConfig_keeps o c Hlinter w) in Hrs |- *.
  unfold lintedFiles in *. rewrite !flat_map_app. cbn [flat_map ret trace].
  rewrite (IH _ _ Hrs), app_nil_r. f_equal.
  destruct (lintConfig_returned E o c w r Hr) as [l [Hl _]].
  rewrite lintConfig_reading by reflexivity.
  exact (lintFiles_lintedFiles E _ _ _ _ _ _ _ _ Hl).
Qed.

(** X10. The task itself writes nothing: if the linter leaves the files it
    lints as they are, the world after a run is the world before it,
    however the run ends. Every config then sees the same files, and a run
    that lints its configs to the end has handed to the linter the files
    resolved for the first config, then those of the second, and so on. *)
Theorem read_only_run_lints_resolved_files (arg : OptionsArg) (w : World E) :
  linterReadsOnly E ->
  let o := spreadOptions arg in
  world (run E projectRoot arg w) = w
  /\ (forall rs,
        outcome (lintAll E o (configsOf o) w) = inr rs ->
        lintedFiles (trace (run E projectRoot arg w))
        = flat_map (fun c => getFilesToLint E w (createdProgram E w c) c)
            (configsOf o)).
Proof.
  intros Hlinter o. split.
  - assert (Hkeeps : KeepsWorld (run E projectRoot arg)); [| apply Hkeeps].
    unfold run.
    destruct (List.length (configsOf (spreadOptions arg)) =? 0)%nat; keeps.
    + now apply lintAll_keeps.
    + apply report_keeps.
    + apply exitCode_keeps.
  - intros rs Hout.
    destruct (configsOf o) as [| c cs] eqn:Hcs.
    { rewrite (run_empty E projectRoot arg w Hcs). cbn [trace].
      now destruct (truthy (silent (spreadOptions arg))). }
    assert (Hne : configsOf o <> []) by (rewrite Hcs; discriminate).
    rewrite <- Hcs in *.
    rewrite (run_linted E projectRoot arg w rs Hne Hout). cbn [trace]. fold o.
    unfold lintedFiles. cbn [flat_map app]. rewrite flat_map_app.
    fold (lintedFiles (trace (lintAll E o (configsOf o) w))).
    rewrite (lintAll_lintedFiles o Hlinter _ _ _ Hout).
    rewrite flat_map_Emits; [apply app_nil_r |].
    apply Emits_bind.
    + eapply Emits_weaken; [| apply report_emits].
      intros [] Hev; (reflexivity || destruct Hev).
    + intros _. eapply Emits_weaken; [| apply exitCode_emits].
      intros [] Hev; (reflexivity || destruct Hev).
Qed.

End RunFacts.

(** ** More on the merge *)

Section MergeExtras.

Variable E : Env.

Local Abbreviation Result := (LintResult (Failure E) (AppliedFix E)).

Lemma known_Permutation (l l' : list (Failure E)) (f : Failure E) :
  Permutation l l' -> known l f = known l' f.
Proof.
  unfold known. induction 1 as [| x l l' _ IH | x y l | l l' l'' _ IH1 _ IH2];
    cbn [existsb].
  - reflexivity.
  - now rewrite IH.
  - now rewrite !orb_assoc, (orb_comm (equals E y f)).
  - now rewrite IH1.
Qed.

(** X11. Any number of configs, in any order: when no result holds the same
    failure twice and [equals] is an equivalence, the merged failures hold
    one entry for each failure that some result has and none else, and
    the number of entries equal to a given failure is the same for every
    order of the configs. *)
Theorem merge_order_irrelevant (rs rs' : list Result) (f : Failure E) :
  EqualsLaws E ->
  Forall (fun r : Result => dupFree (failures r) = true) rs ->
  Permutation rs rs' ->
  occurrences (failures (mergeResults rs)) f
  = (if known (flat_map failures rs) f then 1 else 0)
  /\ occurrences (failures (mergeResults rs')) f
     = occurrences (failures (mergeResults rs)) f.
Proof.
  intros laws Hrs Hperm.
  assert (Hrs' : Forall (fun r : Result => dupFree (failures r) = true) rs').
  { rewrite Forall_forall in *. intros r Hr. apply Hrs.
    now apply (Permutation_in r (Permutation_sym Hperm)). }
  rewrite (occurrences_mergeResults E laws rs f Hrs).
  rewrite (occurrences_mergeResults E laws rs' f Hrs').
  split; [reflexivity |].
  now rewrite (known_Permutation _ _ f (Permutation_flat_map failures Hperm)).
Qed.

Lemma failures_fold_prefix :
  forall (rs : list Result) (total : Result),
    exists tail, failures (fold_left mergeStep rs total) = (failures total ++ tail)%list.
Proof.
  induction rs as [| r rs IH]; intros total; cbn [fold_left].
  - exists []. now rewrite app_nil_r.
  - destruct (IH (mergeStep total r)) as [tail Htail].
    rewrite Htail, failures_mergeStep, <- app_assoc. now eexists.
Qed.

Lemma failures_fold_origin (f : Failure E) :
  forall (rs : list Result) (total : Result),
    In f (failures (fold_left mergeStep rs total)) ->
    In f (failures total) \/ exists r, In r rs /\ In f (failures r).
Proof.
  induction rs as [| r rs IH]; intros total Hin; cbn [fold_left] in Hin.
  - now left.
  - destruct (IH _ Hin) as [Hstep | [r' [Hr' Hf]]].
    + rewrite failures_mergeStep in Hstep. apply in_app_or in Hstep.
      destruct Hstep as [Ht | Hc]; [now left |].
      apply filter_In in Hc. right. exists r. split; [now left | apply Hc].
    + right. exists r'. split; [now right | exact Hf].
Qed.

(** X12. The merge invents nothing and keeps what came first: every merged
    failure is a failure of one of the results, and the merged failures
    begin with the failures of the first result, whole and in their order
    (also when that result holds a failure twice). *)
Theorem merged_failures_origin (rs : list Result) :
  (forall f, In f (failures (mergeResults rs)) ->
             exists r, In r rs /\ In f (failures r))
  /\ (forall r rest, rs = r :: rest ->
        exists tail, failures (mergeResults rs) = (failures r ++ tail)%list).
Proof.
  split.
  - intros f Hin. destruct (failures_fold_origin f rs emptyResult Hin) as [[] | H].
    exact H.
  - intros r rest ->. unfold mergeResults. cbn [fold_left].
    destruct (failures_fold_prefix rest (mergeStep emptyResult r)) as [tail Htail].
    rewrite Htail, failures_mergeStep_empty. now exists tail.
Qed.

Lemma known_In (l : list (Failure E)) (f : Failure E) :
  (forall g, equals E g g = true) -> In f l -> known l f = true.
Proof.
  intros Hrefl Hin. unfold known. apply existsb_exists.
  exists f. split; [exact Hin | apply Hrefl].
Qed.

Lemma known_fold (f : Failure E) :
  (forall g, equals E g g = true) ->
  forall (rs : list Result) (total : Result),
    known (failures total) f = true \/ (exists r, In r rs /\ In f (failures r)) ->
    known (failures (fold_left mergeStep rs total)) f = true.
Proof.
  intros Hrefl. induction rs as [| r rs IH]; intros total H; cbn [fold_left].
  - destruct H as [H | [r [[] _]]]. exact H.
  - apply IH. destruct H as [Ht | [r' [[<- | Hr'] Hf]]].
    + left. rewrite failures_mergeStep, known_app, Ht. reflexivity.
    + left. rewrite failures_mergeStep, known_app.
      destruct (known (failures total) f) eqn:Hk; [reflexivity |].
      cbn [orb]. apply known_In; [exact Hrefl |].
      apply filter_In. split; [exact Hf | now rewrite Hk].
    + right. now exists r'.
Qed.

(** X13. The merge loses nothing: if a failure equals itself, every failure
    of every result has an equal among the merged failures, whether the
    results repeat failures or not. *)
Theorem merged_failures_cover (rs : list Result) (r : Result) (f : Failure E) :
  (forall g, equals E g g = true) ->
  In r rs ->
  In f (failures r) ->
  known (failures (mergeResults rs)) f = true.
Proof.
  intros Hrefl Hr Hf. unfold mergeResults.
  apply known_fold; [exact Hrefl |].
  right. now exists r.
Qed.

Lemma fixesOf_without_fixes :
  forall rs : list Result, existsb hasFixes rs = false -> flat_map fixesOf rs = [].
Proof.
  induction rs as [| r rs IH]; cbn [existsb flat_map]; [reflexivity |].
  intros H. apply orb_false_iff in H. destruct H as [Hr Hrs].
  rewrite (IH Hrs), app_nil_r. unfold hasFixes in Hr. unfold fixesOf.
  now destruct (fixes r).
Qed.

Lemma fixes_fold_closed :
  forall (rs : list Result) (acc : option (list (AppliedFix E))),
    fold_left
      (fun acc r =>
         match fixes r with
         | Some c => Some (match acc with Some t => t | None => [] end ++ c)%list
         | None => acc
         end)
      rs acc
    = if existsb hasFixes rs
      then Some (match acc with Some t => t | None => [] end
                 ++ flat_map fixesOf rs)%list
      else acc.
Proof.
  induction rs as [| r rs IH]; intros acc; cbn [fold_left existsb flat_map].
  - reflexivity.
  - rewrite IH.
    assert (Hr : hasFixes r = match fixes r with Some _ => true | None => false end)
      by reflexivity.
    assert (Hf : fixesOf r = match fixes r with Some l => l | None => [] end)
      by reflexivity.
    rewrite Hr, Hf. clear Hr Hf.
    destruct (fixes r) as [c |]; cbn [orb app]; [| reflexivity].
    destruct (existsb hasFixes rs) eqn:Hrs.
    + now rewrite <- app_assoc.
    + now rewrite (fixesOf_without_fixes rs Hrs), app_nil_r.
Qed.

(** X14. The fixes of the merged result are [undefined] as long as no
    result has fixes (an empty list of fixes counts as having some); from
    then on they are the fixes of all results, one after the other in the
    order of the configs, none left out: their number is the sum of the
    numbers of fixes of the results. *)
Theorem merged_fixes (rs : list Result) :
  fixes (mergeResults rs)
  = (if existsb hasFixes rs then Some (flat_map fixesOf rs) else None)
  /\ List.length (fixesOf (mergeResults rs))
     = list_sum (map (fun r => List.length (fixesOf r)) rs).
Proof.
  assert (Hfixes :
    fixes (mergeResults rs)
    = if existsb hasFixes rs then Some (flat_map fixesOf rs) else None).
  { unfold mergeResults. now rewrite fixes_fold, fixes_fold_closed. }
  split; [exact Hfixes |].
  unfold fixesOf at 1. rewrite Hfixes.
  destruct (existsb hasFixes rs) eqn:Hrs.
  - clear. induction rs as [| r rs IH]; cbn [flat_map map list_sum]; [reflexivity |].
    now rewrite length_app, IH.
  - rewrite <- (fixesOf_without_fixes rs Hrs).
    clear. induction rs as [| r rs IH]; cbn [flat_map map list_sum]; [reflexivity |].
    now rewrite length_app, IH.
Qed.

(** X15. Merging a result a second time adds no failure: when a failure
    equals itself and [r] is one of the results already merged, the
    failures merged from the results followed by [r] again are those merged
    from the results alone. The fixes of [r], if it has any, are appended
    once more all the same. *)
Theorem merging_again_adds_no_failure (rs : list Result) (r : Result) :
  (forall g, equals E g g = true) ->
  In r rs ->
  failures (mergeResults (rs ++ [r])) = failures (mergeResults rs)
  /\ fixesOf (mergeResults (rs ++ [r]))
     = (fixesOf (mergeResults rs) ++ fixesOf r)%list.
Proof.
  intros Hrefl Hr. unfold mergeResults. rewrite fold_left_app. cbn [fold_left].
  fold (mergeResults rs). split.
  - rewrite failures_mergeStep.
    assert (Hnone :
      filter (fun cf => negb (known (failures (mergeResults rs)) cf)) (failures r) = []).
    { assert (Hall : forall f, In f (failures r) ->
                                known (failures (mergeResults rs)) f = true).
      { intros f Hf. unfold mergeResults. apply known_fold; [exact Hrefl |].
        right. now exists r. }
      induction (failures r) as [| f l IH]; cbn [filter]; [reflexivity |].
      rewrite (Hall f) by now left. cbn [negb]. apply IH.
      intros g Hg. apply Hall. now right. }
    now rewrite Hnone, app_nil_r.
  - unfold fixesOf. rewrite fixes_mergeStep.
    destruct (fixes r); [reflexivity | now rewrite app_nil_r].
Qed.

End MergeExtras.

(** ** The further properties on the toy environment *)

Lemma Toy_readOnly : linterReadsOnly Toy.readOnlyEnv.
Proof. intros linter file contents rules w. reflexivity. Qed.

Lemma config_lints_each_file_once_witness :
  let o := spreadOptions Toy.twoConfigs in
  let c := Toy.config ["src/a.ts"; "*"] in
  outcome (lintConfig Toy.env o c Toy.tree)
  = inr (mkResult [Toy.failureA; Toy.failureA; Toy.failureC] (Some []))
  /\ lintedFiles (trace (lintConfig Toy.env o c Toy.tree))
     = ["src/a.ts"; "src/a.ts"; "src/b.ts"; "test/c.ts"; "src/d.ts"].
Proof.
  intros o c. split; [reflexivity |].
  exact (config_lints_each_file_once Toy.env o c Toy.tree _ eq_refl).
Defined.

Lemma config_lookups_follow_directories_witness :
  let o := spreadOptions Toy.twoConfigs in
  let c := Toy.config ["src/a.ts"; "src/b.ts"; "test/c.ts"; "src/d.ts"] in
  outcome (lintConfig Toy.env o c Toy.tree)
  = inr (mkResult [Toy.failureA; Toy.failureC] (Some []))
  /\ lookups (trace (lintConfig Toy.env o c Toy.tree))
     = [(None, "src/a.ts"); (None, "test/c.ts"); (None, "src/d.ts")].
Proof.
  intros o c. split; [reflexivity |].
  exact (proj1 (config_lookups_follow_directories Toy.env o c Toy.tree _ eq_refl)).
Defined.

Lemma program_config_reads_nothing_witness :
  let o := spreadOptions Toy.typeChecked in
  lintsWithoutProgram Toy.env o Toy.withProject = false
  /\ filesRead (trace (lintConfig Toy.env o Toy.withProject Toy.disk)) = [].
Proof.
  intros o. split; [reflexivity |].
  exact (proj1 (program_config_reads_nothing Toy.env o Toy.withProject Toy.disk eq_refl)).
Defined.


Lemma console_of_loud_run_witness :
  truthy (silent (spreadOptions Toy.typeChecked)) = false
  /\ consoleLines (trace (Toy.exec Toy.typeChecked))
     = [typeCheckWarning; typeCheckWarning; Plain "src/a.ts"; failureBanner].
Proof.
  split; [reflexivity |].
  apply (console_of_loud_run Toy.env "/project" Toy.typeChecked Toy.disk
           [mkResult [] (Some []); mkResult [Toy.failureA] (Some []);
            mkResult [Toy.failureA] (Some [])]
           Toy.formatter).
  - reflexivity.
  - reflexivity.
  - discriminate.
  - reflexivity.
Defined.

Lemma exit_code_ignores_format_witness :
  outcome (Toy.exec Toy.forcedFailing) = inr 0%Z
  /\ outcome (Toy.exec Toy.jsonClean) = inr 0%Z.
Proof.
  split.
  - apply (exit_code_ignores_format Toy.env "/project" Toy.forcedFailing Toy.disk
             [mkResult [Toy.failureA] (Some [])]); [reflexivity |].
    right. now exists Toy.formatter.
  - apply (exit_code_ignores_format Toy.env "/project" Toy.jsonClean Toy.disk
             [mkResult [] (Some [])]); [reflexivity |].
    right. now exists Toy.formatter.
Defined.

Lemma silent_run_writes_nothing_witness :
  truthy (silent (spreadOptions Toy.silentFailing)) = true
  /\ outcome (Toy.exec Toy.silentFailing) = inr 2%Z
  /\ consoleLines (trace (Toy.exec Toy.silentFailing)) = [].
Proof.
  split; [reflexivity | split; [reflexivity |]].
  exact (silent_run_writes_nothing Toy.env "/project" Toy.silentFailing Toy.disk eq_refl).
Defined.

Lemma module_loaded_once_first_witness :
  configsOf (spreadOptions Toy.failing) <> []
  /\ exists rest,
       trace (Toy.exec Toy.failing) = RequireProjectModule "/project" "tslint" :: rest
       /\ moduleLoads rest = [].
Proof.
  assert (Hne : configsOf (spreadOptions Toy.failing) <> []) by discriminate.
  split; [exact Hne |].
  exact (module_loaded_once_first Toy.env "/project" Toy.failing Toy.disk Hne).
Defined.

Lemma read_only_run_lints_resolved_files_witness :
  world (run Toy.readOnlyEnv "/project" Toy.twoConfigs Toy.tree) = Toy.tree
  /\ lintedFiles (trace (run Toy.readOnlyEnv "/project" Toy.twoConfigs Toy.tree))
     = ["src/a.ts"; "src/a.ts"; "src/b.ts"; "test/c.ts"; "src/d.ts";
        "test/c.ts"; "src/d.ts"].
Proof.
  destruct (read_only_run_lints_resolved_files Toy.readOnlyEnv "/project"
              Toy.twoConfigs Toy.tree Toy_readOnly) as [Hworld Hfiles].
  split; [exact Hworld |].
  exact (Hfiles _ eq_refl).
Defined.

Lemma merge_order_irrelevant_witness :
  let rs : list (LintResult (Failure Toy.env) (AppliedFix Toy.env)) :=
    [Toy.resultA; Toy.resultB; Toy.resultC] in
  let rs' : list (LintResult (Failure Toy.env) (AppliedFix Toy.env)) :=
    [Toy.resultB; Toy.resultA; Toy.resultC] in
  occurrences (failures (mergeResults rs)) Toy.failureB = 1
  /\ occurrences (failures (mergeResults rs')) Toy.failureB
     = occurrences (failures (mergeResults rs)) Toy.failureB.
Proof.
  intros rs rs'.
  apply (merge_order_irrelevant Toy.env rs rs' Toy.failureB Toy_equals_laws).
  - repeat constructor.
  - apply perm_swap.
Defined.

Lemma merged_failures_cover_witness :
  let rs : list (LintResult (Failure Toy.env) (AppliedFix Toy.env)) :=
    [Toy.resultA; Toy.resultB; Toy.resultC] in
  In Toy.resultB rs
  /\ In Toy.failureC (failures Toy.resultB)
  /\ known (failures (mergeResults rs)) Toy.failureC = true.
Proof.
  intros rs.
  assert (Hr : In Toy.resultB rs) by (right; now left).
  assert (Hf : In Toy.failureC (failures Toy.resultB)) by (right; now left).
  split; [exact Hr | split; [exact Hf |]].
  exact (merged_failures_cover Toy.env rs Toy.resultB Toy.failureC
           (equals_refl Toy.env Toy_equals_laws) Hr Hf).
Defined.

Lemma merging_again_adds_no_failure_witness :
  let rs : list (LintResult (Failure Toy.env) (AppliedFix Toy.env)) :=
    [Toy.resultA; Toy.resultB] in
  failures (mergeResults (rs ++ [Toy.resultA])) = failures (mergeResults rs)
  /\ fixesOf (mergeResults (rs ++ [Toy.resultA])) = ["src/a.ts"; "src/a.ts"].
Proof.
  intros rs.
  destruct (merging_again_adds_no_failure Toy.env rs Toy.resultA
              (equals_refl Toy.env Toy_equals_laws) (or_introl eq_refl))
    as [Hfailures Hfixes].
  split; [exact Hfailures |].
  exact (eq_trans Hfixes eq_refl).
Defined.

Lemma config_without_files_lints_nothing_witness :
  let c := {| files := Some (One EmptyString); project := None;
              tslintConfig := None; exclude := None |} in
  truthyPatterns (files c) = None
  /\ lintConfig Toy.env (spreadOptions Toy.typeChecked) c Toy.disk
     = mkRes [WriteLine typeCheckWarning] Toy.disk (inr (mkResult [] (Some []))).
Proof.
  intros c. split; [reflexivity |].
  exact (config_without_files_lints_nothing Toy.env (spreadOptions Toy.typeChecked) c
           Toy.disk eq_refl eq_refl).
Defined.
